(** * drstrace: argument decoding and trace formatting

    A shallow embedding of [drstrace/drstrace.c] (the system call tracer built
    on the Dr. Syscall extension) and the properties of its decoder and of its
    pre-/post-syscall events.

    The C code prints to the trace file, prints assertion diagnostics to
    STDERR, reads application memory (through [dr_safe_read] and through plain
    pointer dereferences) and may stop the process with [dr_abort].  All of
    that is kept: a computation yields the list of the events it performed, in
    order, together with the way it ended.

    The client code around the tracer (option parsing, the log file, start
    and exit) is embedded too, over the three static variables it shares. *)

From Stdlib Require Import ZArith List String Ascii Bool Lia DecimalString.
Import ListNotations.
Open Scope string_scope.
Open Scope list_scope.
Open Scope Z_scope.

Infix "+++" := String.append (right associativity, at level 60).

(** ** Events and the trace monad *)

Inductive event : Type :=
| EvOut (s : string)                     (* OUTPUT(...): dr_fprintf(outf, ...) *)
| EvAssert (cond msg : string)           (* ASSERT diagnostic on STDERR *)
| EvSafeRead (addr len : Z) (ok : bool)  (* dr_safe_read(addr, len, ...) *)
| EvLoad (addr len : Z).                 (* plain dereference of application memory *)

Inductive outcome (A : Type) : Type :=
| Done (a : A)   (* the function returned *)
| Abort          (* dr_abort() after a failed ASSERT *)
| Fault.         (* a plain dereference hit unreadable memory *)

Arguments Done {A} a.
Arguments Abort {A}.
Arguments Fault {A}.

Definition M (A : Type) : Type := (list event * outcome A)%type.

Definition ret {A} (a : A) : M A := ([], Done a).

Definition bind {A B} (m : M A) (f : A -> M B) : M B :=
  match m with
  | (t, Done a) => let (t', r) := f a in (t ++ t', r)
  | (t, Abort) => (t, Abort)
  | (t, Fault) => (t, Fault)
  end.

Declare Scope trace_scope.
Delimit Scope trace_scope with trace.
Notation "x <- c1 ;; c2" := (bind c1 (fun x => c2))
  (at level 100, c1 at next level, right associativity) : trace_scope.
Notation "c1 ;; c2" := (bind c1 (fun _ => c2))
  (at level 100, right associativity) : trace_scope.
Open Scope trace_scope.

Definition trace_of {A} (m : M A) : list event := fst m.
Definition result_of {A} (m : M A) : outcome A := snd m.

(** [OUTPUT(fmt, ...)], with the formatted text as the event. *)
Definition OUTPUT (s : string) : M unit := ([EvOut s], Done tt).

(** [ASSERT(cond, msg)]: on failure the diagnostic goes to STDERR and
    [dr_abort()] ends the process.  [__FILE__] and [__LINE__] are left out of
    the event; the condition text and the message identify the assertion. *)
Definition ASSERT (c : bool) (cond msg : string) : M unit :=
  if c then ret tt else ([EvAssert cond msg], Abort).

Definition is_out (e : event) : bool :=
  match e with EvOut _ => true | _ => false end.

Definition is_read (e : event) : bool :=
  match e with EvSafeRead _ _ _ | EvLoad _ _ => true | _ => false end.

Definition is_assert (e : event) : bool :=
  match e with EvAssert _ _ => true | _ => false end.

(** ** Text produced by the printf conversions *)

Definition dquote : string := String (ascii_of_nat 34) EmptyString.

Definition hex_digit (d : Z) : ascii :=
  ascii_of_nat (Z.to_nat (if d <? 10 then 48 + d else 87 + d)).

(** The [n] low hexadecimal digits of [v], most significant first. *)
Fixpoint hex_fixed (n : nat) (v : Z) : string :=
  match n with
  | O => EmptyString
  | S k => hex_fixed k (v / 16) +++ String (hex_digit (v mod 16)) EmptyString
  end.

Definition hex_len (v : Z) : nat := Z.to_nat (Z.log2 v / 4 + 1).

(** [%x]: no padding. *)
Definition hex_plain (v : Z) : string := hex_fixed (hex_len v) v.

(** [%0<w>x]: zero-padded to at least [w] digits. *)
Definition hex_pad (w : nat) (v : Z) : string := hex_fixed (Nat.max w (hex_len v)) v.

(** [%d]. *)
Definition dec (v : Z) : string := NilZero.string_of_int (Z.to_int v).

(** ** What the headers fix

    [drstrace.c] takes its flag values, the width of [ptr_uint_t] and the
    Windows structure layouts from headers ([drsyscall.h], [dr_api.h],
    [windefs.h]).  They are parameters of the development. *)

Record field : Type := { f_off : Z; f_size : Z }.

Record platform : Type := {
  ptr_size : Z;                     (* sizeof(ptr_uint_t) *)
  wchar_size : Z;                   (* sizeof(wchar_t) *)
  DRSYS_PARAM_IN : Z;
  DRSYS_PARAM_OUT : Z;
  DRSYS_PARAM_RETVAL : Z;
  DRSYS_PARAM_INLINED : Z;
  us_Length : field;                (* UNICODE_STRING *)
  us_MaximumLength : field;
  us_Buffer : field;
  oa_Length : field;                (* OBJECT_ATTRIBUTES *)
  oa_RootDirectory : field;
  oa_ObjectName : field;
  oa_Attributes : field;
  oa_SecurityDescriptor : field;
  oa_SecurityQualityOfService : field;
  io_Status : field;                (* IO_STATUS_BLOCK *)
  io_Information : field;
  li_QuadPart : field;              (* LARGE_INTEGER *)
  wide_text : list Z -> string      (* how [%S] renders wide characters *)
}.

(** [TEST(mask, var)] and [TESTANY(mask, var)] of utils.h:
    [(((mask) & (var)) != 0)]. *)
Definition TEST (mask var : Z) : bool := negb (Z.land mask var =? 0).
Definition TESTANY (mask var : Z) : bool := negb (Z.land mask var =? 0).

(** The type tags [drstrace.c] names; [DRSYS_TYPE_OTHER] stands for every
    other enumerator of [drsys_param_type_t]. *)
Inductive drsys_param_type_t : Type :=
| DRSYS_TYPE_VOID
| DRSYS_TYPE_POINTER
| DRSYS_TYPE_BOOL
| DRSYS_TYPE_INT
| DRSYS_TYPE_SIGNED_INT
| DRSYS_TYPE_UNSIGNED_INT
| DRSYS_TYPE_HANDLE
| DRSYS_TYPE_NTSTATUS
| DRSYS_TYPE_ATOM
| DRSYS_TYPE_UNICODE_STRING
| DRSYS_TYPE_OBJECT_ATTRIBUTES
| DRSYS_TYPE_IO_STATUS_BLOCK
| DRSYS_TYPE_LARGE_INTEGER
| DRSYS_TYPE_OTHER (tag : Z).

(** The fields of [drsys_arg_t] that [drstrace.c] reads.  [arg_name] and
    [type_name] are [None] for a NULL pointer. *)
Record drsys_arg_t : Type := {
  pre : bool;
  ordinal : Z;
  mode : Z;
  type : drsys_param_type_t;
  arg_name : option string;
  type_name : option string;
  size : Z;
  valid : bool;
  value : Z
}.

Inductive drmf_status_t : Type :=
| DRMF_SUCCESS
| DRMF_ERROR_DETAILS_UNKNOWN
| DRMF_ERROR_OTHER (code : Z).

Definition is_success (r : drmf_status_t) : bool :=
  match r with DRMF_SUCCESS => true | _ => false end.

Definition is_details_unknown (r : drmf_status_t) : bool :=
  match r with DRMF_ERROR_DETAILS_UNKNOWN => true | _ => false end.

(** ** Application memory *)

(** Memory of the traced process: the byte at an address, or [None] where the
    address cannot be read. *)
Definition memory : Type := Z -> option Z.

Fixpoint read_bytes (mem : memory) (addr : Z) (n : nat) : option (list Z) :=
  match n with
  | O => Some []
  | S k =>
      match mem addr, read_bytes mem (addr + 1) k with
      | Some b, Some bs => Some (b :: bs)
      | _, _ => None
      end
  end.

(** Little-endian value of a byte sequence ("We assume little-endian"). *)
Fixpoint le_value (bs : list Z) : Z :=
  match bs with
  | [] => 0
  | b :: rest => b + 256 * le_value rest
  end.

(** ** The decoder *)

Section Decoder.

Variable P : platform.
Variable mem : memory.

(** Modelled from the spec: the macro [PFX] of dr_api.h, the fixed-width
    hexadecimal form: [0x] and the value zero-padded to the width of a
    pointer. *)
Definition PFX (v : Z) : string := "0x" +++ hex_pad (Z.to_nat (2 * ptr_size P)) v.

(** Modelled from the spec: the macro [PIFX] of dr_api.h, the unpadded
    hexadecimal form. *)
Definition PIFX (v : Z) : string := "0x" +++ hex_plain v.

(** Modelled from the spec: [dr_safe_read] of the instrumentation engine, the
    guarded read of [len] bytes at [base] that never faults and reports
    failure.  On success the bytes land in [deref], which starts as 0. *)
Definition dr_safe_read (base len : Z) : M (option Z) :=
  match read_bytes mem base (Z.to_nat len) with
  | Some bs => ([EvSafeRead base len true], Done (Some (le_value bs)))
  | None => ([EvSafeRead base len false], Done None)
  end.

(** A plain C dereference [p->f]: it faults where the bytes are unreadable. *)
Definition load_at (addr len : Z) : M Z :=
  match read_bytes mem addr (Z.to_nat len) with
  | Some bs => ([EvLoad addr len], Done (le_value bs))
  | None => ([EvLoad addr len], Fault)
  end.

Definition load (f : field) (base : Z) : M Z := load_at (base + f_off f) (f_size f).

(** The characters [%.*S] takes from a wide string: at most [n], up to the
    terminating NUL. *)
Fixpoint load_wstr (n : nat) (addr : Z) : M (list Z) :=
  match n with
  | O => ret []
  | S k =>
      c <- load_at addr (wchar_size P) ;;
      if c =? 0 then ret []
      else (rest <- load_wstr k (addr + wchar_size P) ;; ret (c :: rest))
  end.

(** [L"<null>"]. *)
Definition wide_null : list Z := [60; 110; 117; 108; 108; 62].

(** The arguments of the one [OUTPUT] are read left to right. *)
Definition print_unicode_string (us : Z) : M unit :=
  if us =? 0 then OUTPUT "<null>"
  else
    (len <- load (us_Length P) us ;;
     maxlen <- load (us_MaximumLength P) us ;;
     buf <- load (us_Buffer P) us ;;
     let prec := Z.to_nat (len / wchar_size P) in
     chars <- (if buf =? 0 then ret (firstn prec wide_null) else load_wstr prec buf) ;;
     OUTPUT (dec len +++ "/" +++ dec maxlen +++ " " +++ dquote +++
             wide_text P chars +++ dquote)).

Definition print_simple_value (arg : drsys_arg_t) (leading_zeroes : bool) : M unit :=
  let pointer := negb (TEST (DRSYS_PARAM_INLINED P) (mode arg)) in
  OUTPUT (if pointer then PFX (value arg)
          else if leading_zeroes then PFX (value arg) else PIFX (value arg)) ;;
  if pointer && ((pre arg && TEST (DRSYS_PARAM_IN P) (mode arg)) ||
                 (negb (pre arg) && TEST (DRSYS_PARAM_OUT P) (mode arg)))
  then
    (ASSERT (size arg <=? ptr_size P) "arg->size <= sizeof(deref)" "too-big simple type" ;;
     r <- dr_safe_read (value arg) (size arg) ;;
     match r with
     | Some deref =>
         OUTPUT (if leading_zeroes then " => " +++ PFX deref else " => " +++ PIFX deref)
     | None => ret tt
     end)
  else ret tt.

(** The text of the closing [OUTPUT] of [print_arg], from the four fields it
    reads. *)
Definition annotation (name tname : option string) (md sz : Z) : string :=
  " (" +++
  match name with None => EmptyString | Some _ => "name=" end +++
  match name with None => EmptyString | Some n => n end +++
  match name with None => EmptyString | Some _ => ", " end +++
  "type=" +++
  match tname with None => dquote +++ dquote | Some t => t end +++
  (if match tname with None => true | Some _ => false end ||
      TESTANY (Z.lor (DRSYS_PARAM_INLINED P) (DRSYS_PARAM_RETVAL P)) md
   then EmptyString else "*") +++
  ", size=" +++ PIFX sz +++ ")" +++ String (ascii_of_nat 10) EmptyString.

Definition print_arg (arg : drsys_arg_t) : M unit :=
  (if ordinal arg =? -1 then OUTPUT (String (ascii_of_nat 9) "retval: ")
   else OUTPUT (String (ascii_of_nat 9) "arg " +++ dec (ordinal arg) +++ ": ")) ;;
  match type arg with
  | DRSYS_TYPE_VOID => print_simple_value arg true
  | DRSYS_TYPE_POINTER => print_simple_value arg true
  | DRSYS_TYPE_BOOL => print_simple_value arg false
  | DRSYS_TYPE_INT => print_simple_value arg false
  | DRSYS_TYPE_SIGNED_INT => print_simple_value arg false
  | DRSYS_TYPE_UNSIGNED_INT => print_simple_value arg false
  | DRSYS_TYPE_HANDLE => print_simple_value arg false
  | DRSYS_TYPE_NTSTATUS => print_simple_value arg false
  | DRSYS_TYPE_ATOM => print_simple_value arg false
  | _ =>
      if value arg =? 0 then OUTPUT "<null>"
      else if pre arg && negb (TEST (DRSYS_PARAM_IN P) (mode arg)) then OUTPUT (PFX (value arg))
      else
        match type arg with
        | DRSYS_TYPE_UNICODE_STRING => print_unicode_string (value arg)
        | DRSYS_TYPE_OBJECT_ATTRIBUTES =>
            let oa := value arg in
            len <- load (oa_Length P) oa ;;
            root <- load (oa_RootDirectory P) oa ;;
            OUTPUT ("len=" +++ PIFX len +++ ", root=" +++ PIFX root +++ ", name=") ;;
            name <- load (oa_ObjectName P) oa ;;
            print_unicode_string name ;;
            att <- load (oa_Attributes P) oa ;;
            sd <- load (oa_SecurityDescriptor P) oa ;;
            sqos <- load (oa_SecurityQualityOfService P) oa ;;
            OUTPUT (", att=" +++ PIFX att +++ ", sd=" +++ PFX sd +++ ", sqos=" +++ PFX sqos)
        | DRSYS_TYPE_IO_STATUS_BLOCK =>
            let io := value arg in
            status <- load (io_Status P) io ;;
            info <- load (io_Information P) io ;;
            OUTPUT ("status=" +++ PIFX status +++ ", info=" +++ PIFX info)
        | DRSYS_TYPE_LARGE_INTEGER =>
            q <- load (li_QuadPart P) (value arg) ;;
            OUTPUT ("0x" +++ hex_plain q)
        | _ => OUTPUT "<NYI>"
        end
  end ;;
  OUTPUT (annotation (arg_name arg) (type_name arg) (mode arg) (size arg)).

Definition drsys_iter_arg_cb (arg : drsys_arg_t) : M bool :=
  ASSERT (valid arg) "arg->valid" "no args should be invalid" ;;
  (if (pre arg && negb (TEST (DRSYS_PARAM_RETVAL P) (mode arg))) ||
      (negb (pre arg) &&
       TESTANY (Z.lor (DRSYS_PARAM_OUT P) (DRSYS_PARAM_RETVAL P)) (mode arg))
   then print_arg arg else ret tt) ;;
  ret true.

End Decoder.

(** ** The pre- and post-syscall events *)

(** What the Dr. Syscall extension answers for the system call in flight, at
    one of its two events. *)
Record drsys_answers : Type := {
  cur_syscall_res : drmf_status_t;     (* drsys_cur_syscall *)
  syscall_name_res : drmf_status_t;    (* drsys_syscall_name *)
  syscall_name : string;
  is_known_res : drmf_status_t;        (* drsys_syscall_is_known *)
  known : bool;
  succeeded_res : drmf_status_t;       (* drsys_syscall_succeeded *)
  succeeded : bool;
  iter_args : list drsys_arg_t;        (* the records drsys_iterate_args visits *)
  iterate_res : drmf_status_t          (* and the status it returns *)
}.


Section Sequencer.

Variable P : platform.
Variable mem : memory.

Fixpoint visit_args (cb : drsys_arg_t -> M bool) (l : list drsys_arg_t) : M unit :=
  match l with
  | [] => ret tt
  | a :: rest => keep <- cb a ;; if keep then visit_args cb rest else ret tt
  end.

(** Modelled from the spec: [drsys_iterate_args] of the Dr. Syscall extension,
    the iteration primitive that invokes the visitor once per Argument Record
    of the call in flight, until the visitor asks to stop, and reports how the
    iteration went. *)
Definition drsys_iterate_args (s : drsys_answers) (cb : drsys_arg_t -> M bool)
  : M drmf_status_t :=
  visit_args cb (iter_args s) ;; ret (iterate_res s).

Definition newline : string := String (ascii_of_nat 10) EmptyString.

Definition event_pre_syscall (s : drsys_answers) : M bool :=
  (if negb (is_success (cur_syscall_res s))
   then ASSERT false "false" "drsys_cur_syscall failed" else ret tt) ;;
  (if negb (is_success (syscall_name_res s))
   then ASSERT false "false" "drsys_syscall_name failed" else ret tt) ;;
  (if negb (is_success (is_known_res s))
   then ASSERT false "false" "failed to find whether known" else ret tt) ;;
  OUTPUT (syscall_name s +++
          (if known s then EmptyString else " (details not all known)") +++ newline) ;;
  res <- drsys_iterate_args s (drsys_iter_arg_cb P mem) ;;
  (if negb (is_success res) && negb (is_details_unknown res)
   then ASSERT false "false" "drsys_iterate_args failed pre-syscall" else ret tt) ;;
  ret true.

Definition event_post_syscall (s : drsys_answers) : M unit :=
  (if negb (is_success (cur_syscall_res s))
   then ASSERT false "false" "drsys_cur_syscall failed" else ret tt) ;;
  (if negb (is_success (succeeded_res s))
   then ASSERT false "false" "drsys_syscall_succeeded failed" else ret tt) ;;
  OUTPUT ("    " +++ (if succeeded s then "succeeded" else "failed") +++ " =>" +++ newline) ;;
  res <- drsys_iterate_args s (drsys_iter_arg_cb P mem) ;;
  (if negb (is_success res) && negb (is_details_unknown res)
   then ASSERT false "false" "drsys_iterate_args failed post-syscall" else ret tt).

End Sequencer.

(** ** A concrete platform: 32-bit Windows *)

Definition narrow (l : list Z) : string :=
  fold_right (fun c acc => String (ascii_of_nat (Z.to_nat (c mod 256))) acc) EmptyString l.

(** The flag values of [drsys_param_mode_t] in drsyscall.h and the natural
    layout of the Windows structures with 4-byte pointers. *)
Definition win32 : platform :=
  {| ptr_size := 4;
     wchar_size := 2;
     DRSYS_PARAM_IN := 1;
     DRSYS_PARAM_OUT := 2;
     DRSYS_PARAM_RETVAL := 8;
     DRSYS_PARAM_INLINED := 16;
     us_Length := {| f_off := 0; f_size := 2 |};
     us_MaximumLength := {| f_off := 2; f_size := 2 |};
     us_Buffer := {| f_off := 4; f_size := 4 |};
     oa_Length := {| f_off := 0; f_size := 4 |};
     oa_RootDirectory := {| f_off := 4; f_size := 4 |};
     oa_ObjectName := {| f_off := 8; f_size := 4 |};
     oa_Attributes := {| f_off := 12; f_size := 4 |};
     oa_SecurityDescriptor := {| f_off := 16; f_size := 4 |};
     oa_SecurityQualityOfService := {| f_off := 20; f_size := 4 |};
     io_Status := {| f_off := 0; f_size := 4 |};
     io_Information := {| f_off := 4; f_size := 4 |};
     li_QuadPart := {| f_off := 0; f_size := 8 |};
     wide_text := narrow |}.

(** Nothing readable. *)
Definition no_memory : memory := fun _ => None.

(** Sixteen readable bytes at 0x1000: 05 00 00 00 2a 00 ... *)
Definition small_memory : memory :=
  fun a =>
    if a =? 4096 then Some 5
    else if a =? 4100 then Some 42
    else if (4096 <=? a) && (a <? 4112) then Some 0
    else None.

Definition mk_arg (p : bool) (ord md : Z) (ty : drsys_param_type_t) (sz v : Z) : drsys_arg_t :=
  {| pre := p; ordinal := ord; mode := md; type := ty;
     arg_name := None; type_name := Some "HANDLE"; size := sz; valid := true; value := v |}.

(** ** Vocabulary of the statements *)

(** The case labels of [print_arg] that go to [print_simple_value]. *)
Definition simple_type (t : drsys_param_type_t) : bool :=
  match t with
  | DRSYS_TYPE_VOID | DRSYS_TYPE_POINTER | DRSYS_TYPE_BOOL | DRSYS_TYPE_INT
  | DRSYS_TYPE_SIGNED_INT | DRSYS_TYPE_UNSIGNED_INT | DRSYS_TYPE_HANDLE
  | DRSYS_TYPE_NTSTATUS | DRSYS_TYPE_ATOM => true
  | _ => false
  end.

(** The structured types the inner switch of [print_arg] decodes. *)
Definition structured_type (t : drsys_param_type_t) : bool :=
  match t with
  | DRSYS_TYPE_UNICODE_STRING | DRSYS_TYPE_OBJECT_ATTRIBUTES
  | DRSYS_TYPE_IO_STATUS_BLOCK | DRSYS_TYPE_LARGE_INTEGER => true
  | _ => false
  end.

Definition recognized (t : drsys_param_type_t) : bool := simple_type t || structured_type t.

(** The second argument [print_arg] passes to [print_simple_value]. *)
Definition leading_zeroes (t : drsys_param_type_t) : bool :=
  match t with
  | DRSYS_TYPE_VOID | DRSYS_TYPE_POINTER => true
  | _ => false
  end.

(** The text of the opening [OUTPUT] of [print_arg]. *)
Definition label (a : drsys_arg_t) : string :=
  if ordinal a =? -1 then String (ascii_of_nat 9) "retval: "
  else String (ascii_of_nat 9) "arg " +++ dec (ordinal a) +++ ": ".

Definition annotation_of (P : platform) (a : drsys_arg_t) : string :=
  annotation P (arg_name a) (type_name a) (mode a) (size a).

Section Vocabulary.

Variable P : platform.

Definition is_input (a : drsys_arg_t) : bool := TEST (DRSYS_PARAM_IN P) (mode a).
Definition is_output (a : drsys_arg_t) : bool := TEST (DRSYS_PARAM_OUT P) (mode a).
Definition is_retval (a : drsys_arg_t) : bool := TEST (DRSYS_PARAM_RETVAL P) (mode a).
Definition is_inlined (a : drsys_arg_t) : bool := TEST (DRSYS_PARAM_INLINED P) (mode a).

(** The pointer can be followed in the phase of the record: an input pointer
    before the call, an output pointer after it. *)
Definition legible (a : drsys_arg_t) : bool :=
  (pre a && is_input a) || (negb (pre a) && is_output a).

(** The callback printed a line for the record. *)
Definition rendered (mem : memory) (a : drsys_arg_t) : bool :=
  existsb is_out (trace_of (drsys_iter_arg_cb P mem a)).

Definition attempts_read (t : list event) : bool := existsb is_read t.

(** The condition under which [drsys_iter_arg_cb] calls [print_arg]. *)
Definition eligible (a : drsys_arg_t) : bool :=
  (pre a && negb (is_retval a)) || (negb (pre a) && (is_output a || is_retval a)).

(** The value of a record of a simple type, as [print_simple_value] formats
    it when the record is inlined. *)
Definition simple_text (a : drsys_arg_t) (v : Z) : string :=
  if leading_zeroes (type a) then PFX P v else PIFX v.

(** What the [default] arm of the outer switch prints for the value. *)
Definition structured_value (mem : memory) (a : drsys_arg_t) : M unit :=
  if value a =? 0 then OUTPUT "<null>"
  else if pre a && negb (is_input a) then OUTPUT (PFX P (value a))
  else
    match type a with
    | DRSYS_TYPE_UNICODE_STRING => print_unicode_string P mem (value a)
    | DRSYS_TYPE_OBJECT_ATTRIBUTES =>
        len <- load mem (oa_Length P) (value a) ;;
        root <- load mem (oa_RootDirectory P) (value a) ;;
        OUTPUT ("len=" +++ PIFX len +++ ", root=" +++ PIFX root +++ ", name=") ;;
        name <- load mem (oa_ObjectName P) (value a) ;;
        print_unicode_string P mem name ;;
        att <- load mem (oa_Attributes P) (value a) ;;
        sd <- load mem (oa_SecurityDescriptor P) (value a) ;;
        sqos <- load mem (oa_SecurityQualityOfService P) (value a) ;;
        OUTPUT (", att=" +++ PIFX att +++ ", sd=" +++ PFX P sd +++ ", sqos=" +++ PFX P sqos)
    | DRSYS_TYPE_IO_STATUS_BLOCK =>
        status <- load mem (io_Status P) (value a) ;;
        info <- load mem (io_Information P) (value a) ;;
        OUTPUT ("status=" +++ PIFX status +++ ", info=" +++ PIFX info)
    | DRSYS_TYPE_LARGE_INTEGER =>
        q <- load mem (li_QuadPart P) (value a) ;;
        OUTPUT ("0x" +++ hex_plain q)
    | _ => OUTPUT "<NYI>"
    end.

End Vocabulary.

(** Output and plain loads: the events of the [default] arm of [print_arg]. *)
Definition is_plain (e : event) : bool :=
  match e with EvOut _ | EvLoad _ _ => true | _ => false end.

Definition plain {A} (m : M A) : Prop := Forall (fun e => is_plain e = true) (trace_of m).

(** First character of a text. *)
Definition head_char (s : string) : option ascii :=
  match s with
  | EmptyString => None
  | String c _ => Some c
  end.

(** ** Sample records and calls *)

(** An input pointer to a 4-byte integer, seen before the call; 0x1000 holds 5. *)
Definition in_ptr_arg : drsys_arg_t := mk_arg true 0 1 DRSYS_TYPE_INT 4 4096.

(** An output-only argument seen before the call. *)
Definition out_only_arg : drsys_arg_t := mk_arg true 1 2 DRSYS_TYPE_INT 4 4096.

(** The return value (an inlined status) seen after the call. *)
Definition retval_arg : drsys_arg_t := mk_arg false (-1) 24 DRSYS_TYPE_NTSTATUS 4 3221225473.

(** An output LARGE_INTEGER seen after the call. *)
Definition large_int_arg : drsys_arg_t := mk_arg false 3 2 DRSYS_TYPE_LARGE_INTEGER 8 4096.

(** A null OBJECT_ATTRIBUTES pointer, seen before the call. *)
Definition null_struct_arg : drsys_arg_t := mk_arg true 2 1 DRSYS_TYPE_OBJECT_ATTRIBUTES 24 0.

(** A null input pointer of type DRSYS_TYPE_POINTER, seen before the call. *)
Definition null_ptr_arg : drsys_arg_t := mk_arg true 0 1 DRSYS_TYPE_POINTER 4 0.

(** An input pointer into unreadable memory, seen before the call. *)
Definition bad_ptr_arg : drsys_arg_t := mk_arg true 0 1 DRSYS_TYPE_HANDLE 4 8192.

(** The record [in_ptr_arg] with another tag, value and phase. *)
Definition other_arg : drsys_arg_t := mk_arg false 0 1 (DRSYS_TYPE_OTHER 77) 4 12345.

(** A system call whose signature is only partly known, with two records. *)
Definition sample_call : drsys_answers :=
  {| cur_syscall_res := DRMF_SUCCESS;
     syscall_name_res := DRMF_SUCCESS;
     syscall_name := "NtClose";
     is_known_res := DRMF_SUCCESS;
     known := false;
     succeeded_res := DRMF_SUCCESS;
     succeeded := false;
     iter_args := [in_ptr_arg; bad_ptr_arg];
     iterate_res := DRMF_SUCCESS |}.

Definition invalid_arg : drsys_arg_t :=
  {| pre := true; ordinal := 1; mode := 1; type := DRSYS_TYPE_INT;
     arg_name := None; type_name := None; size := 4; valid := false; value := 7 |}.

(** The annotation as the specification describes it: the symbolic name if
    present, the type name or an empty placeholder, the marker of a pointer to
    the type unless the record is inlined or the return value, and the size in
    hexadecimal. *)
Definition annotation_block (name tname : option string) (inlined_or_retval : bool)
    (sz : Z) : string :=
  let tail :=
    match tname with
    | Some t =>
        "type=" +++ t +++ (if inlined_or_retval then EmptyString else "*") +++
        ", size=" +++ PIFX sz +++ ")" +++ newline
    | None => "type=" +++ dquote +++ dquote +++ ", size=" +++ PIFX sz +++ ")" +++ newline
    end in
  match name with
  | Some n => " (name=" +++ n +++ ", " +++ tail
  | None => " (" +++ tail
  end.

(** An input UNICODE_STRING in unreadable memory, seen before the call. *)
Definition unreadable_string_arg : drsys_arg_t :=
  mk_arg true 1 1 DRSYS_TYPE_UNICODE_STRING 8 8192.

(** A named output handle seen after the call. *)
Definition named_arg : drsys_arg_t :=
  {| pre := false; ordinal := 0; mode := 2; type := DRSYS_TYPE_OTHER 77;
     arg_name := Some "FileHandle"; type_name := Some "HANDLE"; size := 4;
     valid := true; value := 12345 |}.

(** ** Vocabulary of the further properties *)

(** The field [f] of the structure at [base] is readable and holds [v]. *)
Definition field_holds (mem : memory) (f : field) (base v : Z) : Prop :=
  exists bs,
    read_bytes mem (base + f_off f) (Z.to_nat (f_size f)) = Some bs /\ le_value bs = v.

(** An abnormal end is accounted for by the last event: an abort comes right
    after an assertion diagnostic, a fault is at a plain load of unreadable
    memory. *)
Definition explained (mem : memory) {A} (m : M A) : Prop :=
  match result_of m with
  | Done _ => True
  | Abort => exists t cond msg, trace_of m = t ++ [EvAssert cond msg]
  | Fault =>
      exists t addr len,
        trace_of m = t ++ [EvLoad addr len] /\
        read_bytes mem addr (Z.to_nat len) = None
  end.

(** The lines of the records the callback prints, in the order of the
    records. *)
Definition printed_lines (P : platform) (mem : memory) (l : list drsys_arg_t)
  : list event :=
  List.concat
    (map (fun a => if eligible P a then trace_of (print_arg P mem a) else []) l).

(** The header line of [event_pre_syscall] and the outcome line of
    [event_post_syscall]. *)
Definition header_line (s : drsys_answers) : string :=
  syscall_name s +++
  (if known s then EmptyString else " (details not all known)") +++ newline.

Definition outcome_line (s : drsys_answers) : string :=
  "    " +++ (if succeeded s then "succeeded" else "failed") +++ " =>" +++ newline.

(** The status of the iteration that both events let pass. *)
Definition tolerated (r : drmf_status_t) : bool := is_success r || is_details_unknown r.

(** A call whose second record is a UNICODE_STRING in unreadable memory. *)
Definition faulting_call : drsys_answers :=
  {| cur_syscall_res := DRMF_SUCCESS; syscall_name_res := DRMF_SUCCESS;
     syscall_name := "NtFoo"; is_known_res := DRMF_SUCCESS; known := false;
     succeeded_res := DRMF_SUCCESS; succeeded := false;
     iter_args := [mk_arg true 0 1 (DRSYS_TYPE_OTHER 40) 4 64;
                   mk_arg true 1 1 DRSYS_TYPE_UNICODE_STRING 8 8192];
     iterate_res := DRMF_SUCCESS |}.

(** Memory holding the bytes [bs] from [base] on, and nothing else. *)
Definition bytes_at (base : Z) (bs : list Z) : memory :=
  fun a => if (base <=? a) then nth_error bs (Z.to_nat (a - base)) else None.

Definition mem_or (m1 m2 : memory) : memory :=
  fun a => match m1 a with Some b => Some b | None => m2 a end.

(** A UNICODE_STRING at 0x2000 with Length 4, MaximumLength 8 and its buffer
    at 0x3000, which holds the characters h, i, x and a NUL. *)
Definition string_memory : memory :=
  mem_or (bytes_at 8192 [4; 0; 8; 0; 0; 48; 0; 0])
         (bytes_at 12288 [104; 0; 105; 0; 120; 0; 0; 0]).

(** A UNICODE_STRING at 0x2000 with Length 4, MaximumLength 8 and no buffer. *)
Definition null_buffer_memory : memory := bytes_at 8192 [4; 0; 8; 0; 0; 0; 0; 0].

(** ** The client around the tracer: options, log file, start and exit *)

(** [file_t] values: [STDERR], [INVALID_FILE] and the handles of opened
    files. *)
Inductive file_t : Type :=
| STDERR
| INVALID_FILE
| LOG_FILE (handle : Z).


Definition is_invalid_file (f : file_t) : bool :=
  match f with INVALID_FILE => true | _ => false end.

(** The static variables [outf], [verbose] and [options.logdir]. *)
Record globals : Type := {
  outf : file_t;
  verbose : Z;
  logdir : string
}.

Inductive client_event : Type :=
| ClStderr (s : string)          (* dr_fprintf(STDERR, ...) of an ALERT *)
| ClAssert (cond msg : string)   (* diagnostic of ASSERT or USAGE_CHECK *)
| ClOpen (dir : string)          (* drx_open_unique_appid_file(dir, ...) *)
| ClClose (f : file_t)           (* dr_close_file(f) *)
| ClCall (name : string).        (* another call into DynamoRIO or an extension *)

(** What DynamoRIO and its extensions answer to the client. *)
Record environment : Type := {
  option_tokens : list string;            (* the tokens dr_get_token finds in dr_get_options(id) *)
  scan_uint : string -> option Z;         (* dr_sscanf(token, "%u", &v): the value when it returns 1 *)
  open_unique : string -> file_t * string; (* drx_open_unique_appid_file: the file and its path *)
  drsys_init_res : drmf_status_t;
  filter_all_res : drmf_status_t;         (* drsys_filter_all_syscalls *)
  drsys_exit_res : drmf_status_t;
  windows : bool                          (* built with WINDOWS defined *)
}.

(** A client computation: from the globals to the events performed and, unless
    the process was aborted, the result and the new globals. *)
Definition Cl (A : Type) : Type := globals -> list client_event * option (A * globals).

Definition cret {A} (a : A) : Cl A := fun g => ([], Some (a, g)).

Definition cbind {A B} (m : Cl A) (f : A -> Cl B) : Cl B :=
  fun g =>
    match m g with
    | (t, Some (a, g')) => let (t', r) := f a g' in (t ++ t', r)
    | (t, None) => (t, None)
    end.

Declare Scope client_scope.
Delimit Scope client_scope with client.
Bind Scope client_scope with Cl.
Notation "x <- c1 ;; c2" := (cbind c1 (fun x => c2))
  (at level 100, c1 at next level, right associativity) : client_scope.
Notation "c1 ;; c2" := (cbind c1 (fun _ => c2))
  (at level 100, right associativity) : client_scope.

Definition emit (e : client_event) : Cl unit := fun g => ([e], Some (tt, g)).

(** [ASSERT(cond, msg)] and [USAGE_CHECK(cond, msg)]: the diagnostic, then
    [dr_abort()]. *)
Definition CHECK (c : bool) (cond msg : string) : Cl unit :=
  fun g => if c then ([], Some (tt, g)) else ([ClAssert cond msg], None).

(** [ALERT(level, fmt, ...)]. *)
Definition ALERT (level : Z) (text : string) : Cl unit :=
  fun g => if verbose g >=? level then ([ClStderr text], Some (tt, g)) else ([], Some (tt, g)).

Definition set_logdir (d : string) : Cl unit :=
  fun g => ([], Some (tt, {| outf := outf g; verbose := verbose g; logdir := d |})).

Definition set_verbose (v : Z) : Cl unit :=
  fun g => ([], Some (tt, {| outf := outf g; verbose := v; logdir := logdir g |})).

Definition set_outf (f : file_t) : Cl unit :=
  fun g => ([], Some (tt, {| outf := f; verbose := verbose g; logdir := logdir g |})).

Definition get_globals : Cl globals := fun g => ([], Some (g, g)).

Section Client.

Variable E : environment.

(** The [for] loop of [options_init] over the tokens that are left. *)
Fixpoint options_loop (s : list string) : Cl unit :=
  match s with
  | [] => cret tt
  | token :: s1 =>
      if String.eqb token "-logdir" then
        match s1 with
        | [] => CHECK false "s != NULL" "missing logdir path"
        | path :: s2 => (set_logdir path ;; options_loop s2)%client
        end
      else if String.eqb token "-verbose" then
        match s1 with
        | [] => CHECK false "s != NULL" "missing -verbose number"
        | number :: s2 =>
            match scan_uint E number with
            | Some v => (set_verbose v ;; options_loop s2)%client
            | None => CHECK false "res == 1" "invalid -verbose number"
            end
        end
      else
        (ALERT 0 ("UNRECOGNIZED OPTION: " +++ dquote +++ token +++ dquote +++ newline) ;;
         CHECK false "false" "invalid option")%client
  end.

Definition options_init : Cl unit :=
  (set_logdir "-" ;; options_loop (option_tokens E))%client.

Definition open_log_file : Cl unit :=
  (g <- get_globals ;;
   if String.eqb (logdir g) "-" then set_outf STDERR
   else
     (emit (ClOpen (logdir g)) ;;
      set_outf (fst (open_unique E (logdir g))) ;;
      CHECK (negb (is_invalid_file (fst (open_unique E (logdir g)))))
            "outf != INVALID_FILE" "failed to open log file" ;;
      ALERT 1 ("log file is " +++ snd (open_unique E (logdir g)) +++ newline)))%client.

(** Only without WINDOWS. *)
Definition event_fork : Cl unit := open_log_file.


Definition event_filter_syscall : bool := true.

Definition dr_init : Cl unit :=
  (options_init ;;
   emit (ClCall "drmgr_init") ;;
   emit (ClCall "drx_init") ;;
   emit (ClCall "drsys_init") ;;
   (if negb (is_success (drsys_init_res E))
    then CHECK false "false" "drsys failed to init" else cret tt) ;;
   emit (ClCall "dr_register_exit_event") ;;
   (if windows E then emit (ClCall "dr_enable_console_printing") else cret tt) ;;
   emit (ClCall "dr_register_filter_syscall_event") ;;
   emit (ClCall "drmgr_register_pre_syscall_event") ;;
   emit (ClCall "drmgr_register_post_syscall_event") ;;
   emit (ClCall "drsys_filter_all_syscalls") ;;
   (if negb (is_success (filter_all_res E))
    then CHECK false "false" "drsys_filter_all_syscalls should never fail" else cret tt) ;;
   open_log_file)%client.

End Client.

(** The options the loop of [options_init] accepts: pairs of [-logdir] and a
    path, and of [-verbose] and a number that [dr_sscanf] reads. *)
Inductive well_formed_options (E : environment) : list string -> Prop :=
| wf_no_option : well_formed_options E []
| wf_logdir path rest :
    well_formed_options E rest ->
    well_formed_options E ("-logdir" :: path :: rest)
| wf_verbose number v rest :
    scan_uint E number = Some v ->
    well_formed_options E rest ->
    well_formed_options E ("-verbose" :: number :: rest).

(** The globals when the client is loaded: zeroed static storage. *)
Definition initial_globals : globals :=
  {| outf := LOG_FILE 0; verbose := 0; logdir := EmptyString |}.

Definition is_open_event (e : client_event) : bool :=
  match e with ClOpen _ => true | _ => false end.

Definition is_close_event (e : client_event) : bool :=
  match e with ClClose _ => true | _ => false end.

(** Decimal digits only. *)
Definition scan_digits (s : string) : option Z :=
  match NilEmpty.uint_of_string s with
  | Some (Decimal.Nil) => None
  | Some u => Some (Z.of_N (N.of_uint u))
  | None => None
  end.

Definition sample_environment (toks : list string) : environment :=
  {| option_tokens := toks;
     scan_uint := scan_digits;
     open_unique := fun d => (LOG_FILE 3, d +++ "/drstrace.app.0000.log");
     drsys_init_res := DRMF_SUCCESS;
     filter_all_res := DRMF_SUCCESS;
     drsys_exit_res := DRMF_SUCCESS;
     windows := true |}.

(** A record whose printing faults: valid and eligible, of a structured
    type, not null, and not an output-only pointer seen before the call. *)
Definition fault_cause (P : platform) (mem : memory) (a : drsys_arg_t) : Prop :=
  valid a = true /\ eligible P a = true /\ structured_type (type a) = true /\
  value a <> 0 /\ (pre a = false \/ is_input P a = true) /\
  result_of (print_arg P mem a) = Fault.

(** A record that makes the callback abort: invalid, or a legible pointer to
    a simple value wider than a machine word. *)
Definition abort_cause (P : platform) (a : drsys_arg_t) : Prop :=
  valid a = false \/
  (eligible P a = true /\ simple_type (type a) = true /\ is_inlined P a = false /\
   legible P a = true /\ ptr_size P < size a).

(** ** Laws of the trace monad *)

Lemma bind_ret_l {A B} (a : A) (f : A -> M B) : bind (ret a) f = f a.
Proof. unfold bind, ret. destruct (f a); reflexivity. Qed.

Lemma bind_OUTPUT {B} (s : string) (f : unit -> M B) :
  bind (OUTPUT s) f = (EvOut s :: trace_of (f tt), result_of (f tt)).
Proof. unfold bind, OUTPUT. destruct (f tt); reflexivity. Qed.

Lemma bind_done {A B} (t : list event) (a : A) (f : A -> M B) :
  bind (t, Done a) f = (t ++ trace_of (f a), result_of (f a)).
Proof. unfold bind. destruct (f a); reflexivity. Qed.

(** ** The shape of [print_simple_value] and [print_arg] *)

Section Shapes.

Variable P : platform.
Variable mem : memory.

Lemma ASSERT_true cond msg : ASSERT true cond msg = ret tt.
Proof. reflexivity. Qed.

Lemma print_simple_value_inlined a lz :
  is_inlined P a = true ->
  print_simple_value P mem a lz = OUTPUT (if lz then PFX P (value a) else PIFX (value a)).
Proof.
  unfold is_inlined, print_simple_value. intros ->. cbn [negb andb].
  rewrite bind_OUTPUT. reflexivity.
Qed.

Lemma print_simple_value_illegible a lz :
  is_inlined P a = false -> legible P a = false ->
  print_simple_value P mem a lz = OUTPUT (PFX P (value a)).
Proof.
  unfold is_inlined, legible, is_input, is_output, print_simple_value.
  intros -> ->. cbn [negb andb]. rewrite bind_OUTPUT. reflexivity.
Qed.

Lemma print_simple_value_too_big a lz :
  is_inlined P a = false -> legible P a = true -> ptr_size P < size a ->
  print_simple_value P mem a lz =
  ([EvOut (PFX P (value a)); EvAssert "arg->size <= sizeof(deref)" "too-big simple type"],
   Abort).
Proof.
  unfold is_inlined, legible, is_input, is_output, print_simple_value.
  intros -> -> Hsz. cbn [negb andb]. rewrite bind_OUTPUT.
  assert (Hle : (size a <=? ptr_size P) = false) by (apply Z.leb_gt; exact Hsz).
  rewrite Hle. reflexivity.
Qed.

Lemma print_simple_value_read_fails a lz :
  is_inlined P a = false -> legible P a = true -> size a <= ptr_size P ->
  read_bytes mem (value a) (Z.to_nat (size a)) = None ->
  print_simple_value P mem a lz =
  ([EvOut (PFX P (value a)); EvSafeRead (value a) (size a) false], Done tt).
Proof.
  unfold is_inlined, legible, is_input, is_output, print_simple_value, dr_safe_read.
  intros -> -> Hsz Hrd. cbn [negb andb]. rewrite bind_OUTPUT.
  assert (Hle : (size a <=? ptr_size P) = true) by (apply Z.leb_le; exact Hsz).
  rewrite Hle, Hrd. reflexivity.
Qed.

Lemma print_simple_value_read_succeeds a lz bs :
  is_inlined P a = false -> legible P a = true -> size a <= ptr_size P ->
  read_bytes mem (value a) (Z.to_nat (size a)) = Some bs ->
  print_simple_value P mem a lz =
  ([EvOut (PFX P (value a)); EvSafeRead (value a) (size a) true;
    EvOut (if lz then " => " +++ PFX P (le_value bs) else " => " +++ PIFX (le_value bs))],
   Done tt).
Proof.
  unfold is_inlined, legible, is_input, is_output, print_simple_value, dr_safe_read.
  intros -> -> Hsz Hrd. cbn [negb andb]. rewrite bind_OUTPUT.
  assert (Hle : (size a <=? ptr_size P) = true) by (apply Z.leb_le; exact Hsz).
  rewrite Hle, Hrd. reflexivity.
Qed.

Lemma print_arg_simple a :
  simple_type (type a) = true ->
  print_arg P mem a =
  (OUTPUT (label a) ;;
   print_simple_value P mem a (leading_zeroes (type a)) ;;
   OUTPUT (annotation_of P a)).
Proof.
  unfold print_arg, label, annotation_of. intros Hs.
  destruct (type a); try discriminate Hs; destruct (ordinal a =? -1); reflexivity.
Qed.

Lemma print_arg_structured a :
  simple_type (type a) = false ->
  print_arg P mem a =
  (OUTPUT (label a) ;; structured_value P mem a ;; OUTPUT (annotation_of P a)).
Proof.
  unfold print_arg, label, annotation_of, structured_value, is_input. intros Hs.
  destruct (type a); try discriminate Hs; destruct (ordinal a =? -1); reflexivity.
Qed.

End Shapes.

(** ** Flag tests *)

Lemma TESTANY_lor (m1 m2 v : Z) : TESTANY (Z.lor m1 m2) v = TEST m1 v || TEST m2 v.
Proof.
  unfold TESTANY, TEST. rewrite Z.land_lor_distr_l.
  destruct (Z.land m1 v =? 0) eqn:H1; destruct (Z.land m2 v =? 0) eqn:H2; cbn.
  - apply Z.eqb_eq in H1, H2. rewrite H1, H2. reflexivity.
  - apply Z.eqb_eq in H1. rewrite H1, Z.lor_0_l, H2. reflexivity.
  - apply Z.eqb_eq in H2. rewrite H2, Z.lor_0_r, H1. reflexivity.
  - apply Z.eqb_neq in H1. destruct (Z.lor _ _ =? 0) eqn:H3; [|reflexivity].
    apply Z.eqb_eq, Z.lor_eq_0_iff in H3. tauto.
Qed.

(** The text [print_arg] closes a line with. *)
Lemma annotation_of_text (P : platform) (a : drsys_arg_t) :
  annotation_of P a =
  annotation_block (arg_name a) (type_name a) (is_inlined P a || is_retval P a) (size a).
Proof.
  unfold annotation_of, annotation, annotation_block, is_inlined, is_retval.
  rewrite TESTANY_lor.
  destruct (arg_name a), (type_name a),
    (TEST (DRSYS_PARAM_INLINED P) (mode a) || TEST (DRSYS_PARAM_RETVAL P) (mode a));
    reflexivity.
Qed.

(** ** The eligibility rule of the callback *)

Section Eligibility.

Variable P : platform.
Variable mem : memory.

Lemma trace_bind_ret {A B} (m : M A) (b : B) :
  trace_of (bind m (fun _ => ret b)) = trace_of m.
Proof.
  destruct m as [t [x| |]]; cbn; [apply app_nil_r | reflexivity | reflexivity].
Qed.

Lemma print_arg_starts_with_label a :
  exists tl, trace_of (print_arg P mem a) = EvOut (label a) :: tl.
Proof.
  destruct (simple_type (type a)) eqn:Hs.
  - rewrite print_arg_simple by exact Hs. rewrite bind_OUTPUT. eexists. reflexivity.
  - rewrite print_arg_structured by exact Hs. rewrite bind_OUTPUT. eexists. reflexivity.
Qed.

Lemma print_arg_outputs a : existsb is_out (trace_of (print_arg P mem a)) = true.
Proof.
  destruct (print_arg_starts_with_label a) as [tl ->]. reflexivity.
Qed.

Lemma drsys_iter_arg_cb_valid a :
  valid a = true ->
  drsys_iter_arg_cb P mem a =
  ((if eligible P a then print_arg P mem a else ret tt) ;; ret true).
Proof.
  unfold drsys_iter_arg_cb, eligible, is_retval, is_output. intros ->.
  rewrite ASSERT_true, bind_ret_l, TESTANY_lor. reflexivity.
Qed.

Lemma drsys_iter_arg_cb_eligible a :
  valid a = true -> eligible P a = true ->
  trace_of (drsys_iter_arg_cb P mem a) = trace_of (print_arg P mem a).
Proof.
  intros Hv He. rewrite drsys_iter_arg_cb_valid by exact Hv. rewrite He.
  apply trace_bind_ret.
Qed.

Lemma drsys_iter_arg_cb_skips a :
  valid a = true -> eligible P a = false -> drsys_iter_arg_cb P mem a = ret true.
Proof.
  intros Hv He. rewrite drsys_iter_arg_cb_valid by exact Hv. rewrite He. reflexivity.
Qed.

Lemma rendered_iff_eligible a :
  valid a = true -> (rendered P mem a = true <-> eligible P a = true).
Proof.
  intros Hv. unfold rendered. destruct (eligible P a) eqn:He.
  - rewrite drsys_iter_arg_cb_eligible by assumption. rewrite print_arg_outputs. tauto.
  - rewrite drsys_iter_arg_cb_skips by assumption. cbn. tauto.
Qed.

End Eligibility.

(** C1, as the code has it.  At the entry phase the callback prints a valid
    record if and only if it is not the return-value slot, whatever its
    direction: an output-only record is printed too (with its address).  The
    return value is never printed at entry: the callback then does nothing but
    return "keep going". *)
Theorem entry_prints_all_but_retval (P : platform) (mem : memory) (a : drsys_arg_t) :
  valid a = true -> pre a = true ->
  (rendered P mem a = true <-> is_retval P a = false) /\
  (is_retval P a = false ->
   trace_of (drsys_iter_arg_cb P mem a) = trace_of (print_arg P mem a)) /\
  (is_retval P a = true -> drsys_iter_arg_cb P mem a = ret true).
Proof.
  intros Hv Hp.
  assert (He : eligible P a = negb (is_retval P a)).
  { unfold eligible. rewrite Hp. cbn. apply orb_false_r. }
  split; [|split].
  - rewrite rendered_iff_eligible by exact Hv. rewrite He.
    destruct (is_retval P a); cbn; intuition congruence.
  - intros Hr. apply drsys_iter_arg_cb_eligible; [exact Hv|]. rewrite He, Hr. reflexivity.
  - intros Hr. apply drsys_iter_arg_cb_skips; [exact Hv|]. rewrite He, Hr. reflexivity.
Qed.

Lemma entry_prints_all_but_retval_witness :
  (rendered win32 small_memory out_only_arg = true <->
   is_retval win32 out_only_arg = false) /\
  (is_retval win32 out_only_arg = false ->
   trace_of (drsys_iter_arg_cb win32 small_memory out_only_arg) =
   trace_of (print_arg win32 small_memory out_only_arg)) /\
  (is_retval win32 out_only_arg = true ->
   drsys_iter_arg_cb win32 small_memory out_only_arg = ret true).
Proof.
  apply (entry_prints_all_but_retval win32 small_memory out_only_arg); reflexivity.
Defined.

(** C1 as stated fails: at entry the output-only record [out_only_arg] is
    printed although it is not an input-direction record. *)
Lemma entry_prints_output_only_record :
  valid out_only_arg = true /\ pre out_only_arg = true /\
  ~ (rendered win32 small_memory out_only_arg = true <->
     (is_input win32 out_only_arg = true /\ is_retval win32 out_only_arg = false)).
Proof.
  split; [reflexivity|]. split; [reflexivity|].
  intros [H _]. assert (Hr : rendered win32 small_memory out_only_arg = true) by reflexivity.
  destruct (H Hr) as [Hin _]. vm_compute in Hin. discriminate Hin.
Qed.

(** C2.  At the exit phase the callback prints a valid record if and only if
    it is an output-direction record or the return-value slot. *)
Theorem exit_prints_output_or_retval (P : platform) (mem : memory) (a : drsys_arg_t) :
  valid a = true -> pre a = false ->
  (rendered P mem a = true <-> (is_output P a = true \/ is_retval P a = true)) /\
  (is_output P a = true \/ is_retval P a = true ->
   trace_of (drsys_iter_arg_cb P mem a) = trace_of (print_arg P mem a)) /\
  (is_output P a = false /\ is_retval P a = false ->
   drsys_iter_arg_cb P mem a = ret true).
Proof.
  intros Hv Hp.
  assert (He : eligible P a = is_output P a || is_retval P a).
  { unfold eligible. rewrite Hp. reflexivity. }
  split; [|split].
  - rewrite rendered_iff_eligible by exact Hv. rewrite He. apply orb_true_iff.
  - intros Ho. apply drsys_iter_arg_cb_eligible; [exact Hv|]. rewrite He.
    apply orb_true_iff. exact Ho.
  - intros [Ho Hr]. apply drsys_iter_arg_cb_skips; [exact Hv|]. rewrite He, Ho, Hr.
    reflexivity.
Qed.

Lemma exit_prints_output_or_retval_witness :
  (rendered win32 no_memory retval_arg = true <->
   (is_output win32 retval_arg = true \/ is_retval win32 retval_arg = true)) /\
  (is_output win32 retval_arg = true \/ is_retval win32 retval_arg = true ->
   trace_of (drsys_iter_arg_cb win32 no_memory retval_arg) =
   trace_of (print_arg win32 no_memory retval_arg)) /\
  (is_output win32 retval_arg = false /\ is_retval win32 retval_arg = false ->
   drsys_iter_arg_cb win32 no_memory retval_arg = ret true).
Proof.
  apply (exit_prints_output_or_retval win32 no_memory retval_arg); reflexivity.
Defined.

(** ** The five ways [print_arg] prints a record of a simple type *)

Section SimpleRecords.

Variable P : platform.
Variable mem : memory.

Lemma print_arg_simple_inlined a :
  simple_type (type a) = true -> is_inlined P a = true ->
  print_arg P mem a =
  ([EvOut (label a); EvOut (simple_text P a (value a)); EvOut (annotation_of P a)], Done tt).
Proof.
  intros Hs Hi. rewrite print_arg_simple by exact Hs.
  rewrite print_simple_value_inlined by exact Hi. reflexivity.
Qed.

Lemma print_arg_simple_illegible a :
  simple_type (type a) = true -> is_inlined P a = false -> legible P a = false ->
  print_arg P mem a =
  ([EvOut (label a); EvOut (PFX P (value a)); EvOut (annotation_of P a)], Done tt).
Proof.
  intros Hs Hi Hl. rewrite print_arg_simple by exact Hs.
  rewrite print_simple_value_illegible by assumption. reflexivity.
Qed.

Lemma print_arg_simple_too_big a :
  simple_type (type a) = true -> is_inlined P a = false -> legible P a = true ->
  ptr_size P < size a ->
  print_arg P mem a =
  ([EvOut (label a); EvOut (PFX P (value a));
    EvAssert "arg->size <= sizeof(deref)" "too-big simple type"], Abort).
Proof.
  intros Hs Hi Hl Hsz. rewrite print_arg_simple by exact Hs.
  rewrite print_simple_value_too_big by assumption. reflexivity.
Qed.

Lemma print_arg_simple_read_fails a :
  simple_type (type a) = true -> is_inlined P a = false -> legible P a = true ->
  size a <= ptr_size P ->
  read_bytes mem (value a) (Z.to_nat (size a)) = None ->
  print_arg P mem a =
  ([EvOut (label a); EvOut (PFX P (value a)); EvSafeRead (value a) (size a) false;
    EvOut (annotation_of P a)], Done tt).
Proof.
  intros Hs Hi Hl Hsz Hrd. rewrite print_arg_simple by exact Hs.
  rewrite print_simple_value_read_fails by assumption. reflexivity.
Qed.

Lemma print_arg_simple_read_succeeds a bs :
  simple_type (type a) = true -> is_inlined P a = false -> legible P a = true ->
  size a <= ptr_size P ->
  read_bytes mem (value a) (Z.to_nat (size a)) = Some bs ->
  print_arg P mem a =
  ([EvOut (label a); EvOut (PFX P (value a)); EvSafeRead (value a) (size a) true;
    EvOut (" => " +++ simple_text P a (le_value bs)); EvOut (annotation_of P a)], Done tt).
Proof.
  intros Hs Hi Hl Hsz Hrd. rewrite print_arg_simple by exact Hs.
  rewrite (print_simple_value_read_succeeds P mem a _ bs) by assumption.
  unfold simple_text. destruct (leading_zeroes (type a)); reflexivity.
Qed.

End SimpleRecords.

(** Case analysis on a record of a simple type: rewrites [print_arg] to the
    trace of the case at hand. *)
Ltac simple_record_cases P mem a Hs :=
  let Hi := fresh "Hi" in
  let Hl := fresh "Hl" in
  let Hsz := fresh "Hsz" in
  let Hrd := fresh "Hrd" in
  let bs := fresh "bs" in
  destruct (is_inlined P a) eqn:Hi;
  [ rewrite (print_arg_simple_inlined P mem a Hs Hi)
  | destruct (legible P a) eqn:Hl;
    [ destruct (Z_le_gt_dec (size a) (ptr_size P)) as [Hsz|Hsz];
      [ destruct (read_bytes mem (value a) (Z.to_nat (size a))) as [bs|] eqn:Hrd;
        [ rewrite (print_arg_simple_read_succeeds P mem a bs Hs Hi Hl Hsz Hrd)
        | rewrite (print_arg_simple_read_fails P mem a Hs Hi Hl Hsz Hrd) ]
      | rewrite (print_arg_simple_too_big P mem a Hs Hi Hl (Z.gt_lt _ _ Hsz)) ]
    | rewrite (print_arg_simple_illegible P mem a Hs Hi Hl) ] ].

(** C3.  For a record of a simple type, decoding attempts a read of
    application memory if and only if the record is a pointer to the value
    (not inlined) and the pointer is legible in the phase of the record (input
    before the call, output after it); the record's size is within a machine
    word, as the data model has it.  An inlined record never triggers a
    read, whatever its size. *)
Theorem simple_reads_iff_legible_pointer (P : platform) (mem : memory) (a : drsys_arg_t) :
  simple_type (type a) = true ->
  (is_inlined P a = true -> attempts_read (trace_of (print_arg P mem a)) = false) /\
  (size a <= ptr_size P ->
   (attempts_read (trace_of (print_arg P mem a)) = true <->
    (is_inlined P a = false /\
     ((pre a = true /\ is_input P a = true) \/ (pre a = false /\ is_output P a = true))))).
Proof.
  intros Hs.
  assert (Hleg : legible P a = true <->
                 ((pre a = true /\ is_input P a = true) \/
                  (pre a = false /\ is_output P a = true))).
  { unfold legible. destruct (pre a), (is_input P a), (is_output P a); cbn;
      intuition congruence. }
  split.
  - intros Hi. rewrite (print_arg_simple_inlined P mem a Hs Hi). reflexivity.
  - intros Hle. rewrite <- Hleg. clear Hleg.
    simple_record_cases P mem a Hs; cbn; try lia; intuition congruence.
Qed.

Lemma simple_reads_iff_legible_pointer_witness :
  attempts_read (trace_of (print_arg win32 small_memory in_ptr_arg)) = true <->
  (is_inlined win32 in_ptr_arg = false /\
   ((pre in_ptr_arg = true /\ is_input win32 in_ptr_arg = true) \/
    (pre in_ptr_arg = false /\ is_output win32 in_ptr_arg = true))).
Proof.
  apply (simple_reads_iff_legible_pointer win32 small_memory in_ptr_arg);
    [reflexivity | cbn; lia].
Defined.

(** ** Records of structured types: plain dereferences only *)

Lemma plain_ret {A} (a : A) : plain (ret a).
Proof. constructor. Qed.

Lemma plain_OUTPUT s : plain (OUTPUT s).
Proof. repeat constructor. Qed.

Lemma plain_bind {A B} (m : M A) (f : A -> M B) :
  plain m -> (forall a, plain (f a)) -> plain (bind m f).
Proof.
  unfold plain. destruct m as [t [a| |]]; cbn [trace_of fst]; intros Hm Hf.
  - rewrite bind_done. cbn [trace_of fst]. apply Forall_app. split; [exact Hm | apply Hf].
  - exact Hm.
  - exact Hm.
Qed.

Section Structured.

Variable P : platform.
Variable mem : memory.

Lemma plain_load_at addr len : plain (load_at mem addr len).
Proof.
  unfold load_at. destruct (read_bytes mem addr (Z.to_nat len)); repeat constructor.
Qed.

Lemma plain_load f base : plain (load mem f base).
Proof. apply plain_load_at. Qed.

Lemma plain_load_wstr n : forall addr, plain (load_wstr P mem n addr).
Proof.
  induction n as [|k IH]; intros addr; cbn [load_wstr].
  - apply plain_ret.
  - apply plain_bind; [apply plain_load_at|]. intros c.
    destruct (c =? 0); [apply plain_ret|].
    apply plain_bind; [apply IH|]. intros rest. apply plain_ret.
Qed.

Lemma plain_print_unicode_string us : plain (print_unicode_string P mem us).
Proof.
  unfold print_unicode_string. destruct (us =? 0); [apply plain_OUTPUT|].
  repeat (apply plain_bind; [apply plain_load|]; intros ?).
  apply plain_bind; [|intros; apply plain_OUTPUT].
  destruct (_ =? 0); [apply plain_ret | apply plain_load_wstr].
Qed.

Lemma plain_structured_value a : plain (structured_value P mem a).
Proof.
  unfold structured_value.
  destruct (value a =? 0); [apply plain_OUTPUT|].
  destruct (pre a && negb (is_input P a)); [apply plain_OUTPUT|].
  destruct (type a); try apply plain_OUTPUT;
    repeat first [ apply plain_OUTPUT
                 | apply plain_print_unicode_string
                 | apply plain_bind; [|intros ?]
                 | apply plain_load ].
Qed.

Lemma plain_print_arg_structured a :
  simple_type (type a) = false -> plain (print_arg P mem a).
Proof.
  intros Hs. rewrite print_arg_structured by exact Hs.
  apply plain_bind; [apply plain_OUTPUT|]. intros _.
  apply plain_bind; [apply plain_structured_value|]. intros _. apply plain_OUTPUT.
Qed.

Lemma print_arg_structured_null a :
  simple_type (type a) = false -> value a = 0 ->
  print_arg P mem a =
  ([EvOut (label a); EvOut "<null>"; EvOut (annotation_of P a)], Done tt).
Proof.
  intros Hs Hv. rewrite print_arg_structured by exact Hs.
  unfold structured_value. rewrite Hv. reflexivity.
Qed.

End Structured.

(** ** Telling the printed texts apart *)

Lemma head_char_neq (s1 s2 : string) : head_char s1 <> head_char s2 -> s1 <> s2.
Proof. intros H E. apply H. rewrite E. reflexivity. Qed.

Lemma label_not_null a : label a <> "<null>".
Proof.
  apply head_char_neq. unfold label. destruct (ordinal a =? -1); vm_compute; discriminate.
Qed.

Lemma PFX_not_null P v : PFX P v <> "<null>".
Proof. apply head_char_neq. vm_compute. discriminate. Qed.

Lemma PIFX_not_null v : PIFX v <> "<null>".
Proof. apply head_char_neq. vm_compute. discriminate. Qed.

Lemma annotation_not_null P a : annotation_of P a <> "<null>".
Proof. apply head_char_neq. vm_compute. discriminate. Qed.

(** A record of a simple type never prints the null placeholder. *)
Lemma simple_never_prints_null P mem a :
  simple_type (type a) = true -> ~ In (EvOut "<null>") (trace_of (print_arg P mem a)).
Proof.
  intros Hs Hin.
  assert (Hlab := label_not_null a). assert (Hpfx := PFX_not_null P (value a)).
  assert (Hann := annotation_not_null P a).
  assert (Htxt : simple_text P a (value a) <> "<null>").
  { unfold simple_text. destruct (leading_zeroes (type a));
      [apply PFX_not_null | apply PIFX_not_null]. }
  revert Hin. simple_record_cases P mem a Hs; cbn [trace_of fst In]; intros Hin;
    repeat match goal with
           | H : _ \/ _ |- _ => destruct H as [H|H]
           | H : EvOut _ = EvOut _ |- _ => injection H as H
           | H : False |- _ => destruct H
           end; congruence.
Qed.

(** A record of a simple type whose size is within a machine word is always
    decoded to the end, whatever the memory holds. *)
Lemma print_arg_simple_returns P mem a :
  simple_type (type a) = true -> size a <= ptr_size P ->
  result_of (print_arg P mem a) = Done tt /\
  existsb is_assert (trace_of (print_arg P mem a)) = false.
Proof.
  intros Hs Hle. simple_record_cases P mem a Hs; cbn; try lia; split; reflexivity.
Qed.

(** C4, as the code has it.  While decoding a record of a simple type, every
    read of application memory is a guarded [dr_safe_read] at the record's
    value whose length is the record's declared size, and that size is within
    one machine word whenever a read happens; under the size invariant the
    too-big-simple-type assertion does not fire and the decoder returns. *)
Theorem simple_reads_guarded_and_bounded (P : platform) (mem : memory) (a : drsys_arg_t) :
  simple_type (type a) = true ->
  (forall e, In e (trace_of (print_arg P mem a)) -> is_read e = true ->
     (exists ok, e = EvSafeRead (value a) (size a) ok) /\ size a <= ptr_size P) /\
  (size a <= ptr_size P ->
   existsb is_assert (trace_of (print_arg P mem a)) = false /\
   result_of (print_arg P mem a) = Done tt).
Proof.
  intros Hs. split.
  - intros e. simple_record_cases P mem a Hs; cbn [trace_of fst In]; intros Hin Hr;
      repeat match goal with
             | H : _ \/ _ |- _ => destruct H as [H|H]
             | H : False |- _ => destruct H
             end; subst e; try discriminate Hr; (split; [eexists; reflexivity | assumption]).
  - intros Hle. destruct (print_arg_simple_returns P mem a Hs Hle). split; assumption.
Qed.

Lemma simple_reads_guarded_and_bounded_witness :
  (forall e, In e (trace_of (print_arg win32 small_memory in_ptr_arg)) -> is_read e = true ->
     (exists ok, e = EvSafeRead (value in_ptr_arg) (size in_ptr_arg) ok) /\
     size in_ptr_arg <= ptr_size win32) /\
  (size in_ptr_arg <= ptr_size win32 ->
   existsb is_assert (trace_of (print_arg win32 small_memory in_ptr_arg)) = false /\
   result_of (print_arg win32 small_memory in_ptr_arg) = Done tt).
Proof.
  apply (simple_reads_guarded_and_bounded win32 small_memory in_ptr_arg). reflexivity.
Defined.

(** C4 as stated fails: decoding [large_int_arg] reads eight bytes of
    application memory by a plain dereference, not through the guarded
    read. *)
Lemma structured_read_is_a_plain_load :
  ~ (forall e, In e (trace_of (print_arg win32 small_memory large_int_arg)) ->
       is_read e = true ->
       exists addr len ok, e = EvSafeRead addr len ok /\ len <= size large_int_arg).
Proof.
  intros H. destruct (H (EvLoad 4096 8)) as [addr [len [ok [E _]]]].
  - vm_compute. right. left. reflexivity.
  - reflexivity.
  - discriminate E.
Qed.

(** C5, as the code has it.  For a record of a structured (not simple) type
    whose value is the null address, the decoder prints the null placeholder
    between the label and the annotation and performs no read at all. *)
Theorem structured_null_prints_placeholder (P : platform) (mem : memory) (a : drsys_arg_t) :
  simple_type (type a) = false -> value a = 0 ->
  trace_of (print_arg P mem a) =
    [EvOut (label a); EvOut "<null>"; EvOut (annotation_of P a)] /\
  result_of (print_arg P mem a) = Done tt /\
  attempts_read (trace_of (print_arg P mem a)) = false.
Proof.
  intros Hs Hv. rewrite (print_arg_structured_null P mem a Hs Hv).
  repeat split; reflexivity.
Qed.

Lemma structured_null_prints_placeholder_witness :
  trace_of (print_arg win32 no_memory null_struct_arg) =
    [EvOut (label null_struct_arg); EvOut "<null>";
     EvOut (annotation_of win32 null_struct_arg)] /\
  result_of (print_arg win32 no_memory null_struct_arg) = Done tt /\
  attempts_read (trace_of (print_arg win32 no_memory null_struct_arg)) = false.
Proof.
  apply (structured_null_prints_placeholder win32 no_memory null_struct_arg); reflexivity.
Defined.

(** C5 as stated fails: for the pointer-typed record [null_ptr_arg], whose
    value is null, no null placeholder is printed and a read is attempted. *)
Lemma null_simple_pointer_is_dereferenced :
  type null_ptr_arg = DRSYS_TYPE_POINTER /\ value null_ptr_arg = 0 /\
  ~ (In (EvOut "<null>") (trace_of (print_arg win32 no_memory null_ptr_arg)) /\
     attempts_read (trace_of (print_arg win32 no_memory null_ptr_arg)) = false).
Proof.
  split; [reflexivity|]. split; [reflexivity|].
  intros [_ H]. vm_compute in H. discriminate H.
Qed.

(** ** Failed guarded reads *)

Lemma visit_args_continue (cb : drsys_arg_t -> M bool) a rest t :
  cb a = (t, Done true) ->
  visit_args cb (a :: rest) = (t ++ trace_of (visit_args cb rest), result_of (visit_args cb rest)).
Proof.
  intros H. cbn [visit_args]. rewrite H, bind_done. reflexivity.
Qed.

(** C6.  When the guarded read of a record fails, nothing is raised: the
    callback returns "keep going", the line carries the pointer's address and
    the annotation but no dereferenced value, and the iteration goes on with
    the next record. *)
Theorem failed_safe_read_is_silent (P : platform) (mem : memory) (a : drsys_arg_t)
    (rest : list drsys_arg_t) (addr len : Z) :
  In (EvSafeRead addr len false) (trace_of (drsys_iter_arg_cb P mem a)) ->
  drsys_iter_arg_cb P mem a =
    ([EvOut (label a); EvOut (PFX P (value a)); EvSafeRead (value a) (size a) false;
      EvOut (annotation_of P a)], Done true) /\
  visit_args (drsys_iter_arg_cb P mem) (a :: rest) =
    ([EvOut (label a); EvOut (PFX P (value a)); EvSafeRead (value a) (size a) false;
      EvOut (annotation_of P a)] ++ trace_of (visit_args (drsys_iter_arg_cb P mem) rest),
     result_of (visit_args (drsys_iter_arg_cb P mem) rest)).
Proof.
  intros Hin.
  assert (Hcb : drsys_iter_arg_cb P mem a =
    ([EvOut (label a); EvOut (PFX P (value a)); EvSafeRead (value a) (size a) false;
      EvOut (annotation_of P a)], Done true)).
  { destruct (valid a) eqn:Hv.
    2:{ unfold drsys_iter_arg_cb in Hin. rewrite Hv in Hin. cbn in Hin.
        destruct Hin as [Hin|[]]. discriminate Hin. }
    rewrite (drsys_iter_arg_cb_valid P mem a Hv) in Hin |- *.
    destruct (eligible P a).
    2:{ cbn in Hin. destruct Hin. }
    rewrite trace_bind_ret in Hin.
    destruct (simple_type (type a)) eqn:Hs.
    - revert Hin. simple_record_cases P mem a Hs; cbn [trace_of fst In]; intros Hin;
        try reflexivity;
        repeat match goal with
               | H : _ \/ _ |- _ => destruct H as [H|H]
               | H : False |- _ => destruct H
               end; discriminate Hin.
    - assert (Hp := plain_print_arg_structured P mem a Hs).
      unfold plain in Hp. rewrite Forall_forall in Hp.
      specialize (Hp _ Hin). discriminate Hp. }
  split; [exact Hcb|]. apply visit_args_continue. exact Hcb.
Qed.

Lemma failed_safe_read_is_silent_witness :
  drsys_iter_arg_cb win32 small_memory bad_ptr_arg =
    ([EvOut (label bad_ptr_arg); EvOut (PFX win32 (value bad_ptr_arg));
      EvSafeRead (value bad_ptr_arg) (size bad_ptr_arg) false;
      EvOut (annotation_of win32 bad_ptr_arg)], Done true) /\
  visit_args (drsys_iter_arg_cb win32 small_memory) [bad_ptr_arg; in_ptr_arg] =
    ([EvOut (label bad_ptr_arg); EvOut (PFX win32 (value bad_ptr_arg));
      EvSafeRead (value bad_ptr_arg) (size bad_ptr_arg) false;
      EvOut (annotation_of win32 bad_ptr_arg)] ++
     trace_of (visit_args (drsys_iter_arg_cb win32 small_memory) [in_ptr_arg]),
     result_of (visit_args (drsys_iter_arg_cb win32 small_memory) [in_ptr_arg])).
Proof.
  apply (failed_safe_read_is_silent win32 small_memory bad_ptr_arg [in_ptr_arg] 8192 4).
  vm_compute. right. right. left. reflexivity.
Defined.

(** ** The annotation *)

Lemma print_arg_ends_with_annotation P mem a :
  result_of (print_arg P mem a) = Done tt ->
  exists t, trace_of (print_arg P mem a) = t ++ [EvOut (annotation_of P a)].
Proof.
  assert (H : forall X : M unit,
    result_of (OUTPUT (label a) ;; X ;; OUTPUT (annotation_of P a)) = Done tt ->
    exists t, trace_of (OUTPUT (label a) ;; X ;; OUTPUT (annotation_of P a)) =
              t ++ [EvOut (annotation_of P a)]).
  { intros [t [[]| |]]; cbn; intros H; try discriminate H.
    exists (EvOut (label a) :: t). reflexivity. }
  destruct (simple_type (type a)) eqn:Hs.
  - rewrite print_arg_simple by exact Hs. apply H.
  - rewrite print_arg_structured by exact Hs. apply H.
Qed.

(** ** Unrecognized type tags *)

(** C8.  For a record whose type tag is outside the recognized vocabulary,
    with a value that is not null and that is not an output-only pointer seen
    before the call, the decoder prints the not-yet-implemented placeholder,
    reads nothing, returns, and still prints the whole annotation: the name if
    there is one, the type name or the empty placeholder, the pointer marker
    unless the record is inlined or the return value, and the size. *)
Theorem unrecognized_type_prints_nyi (P : platform) (mem : memory) (a : drsys_arg_t) :
  recognized (type a) = false -> value a <> 0 ->
  pre a && negb (is_input P a) = false ->
  print_arg P mem a =
    ([EvOut (label a); EvOut "<NYI>";
      EvOut (annotation_block (arg_name a) (type_name a)
               (is_inlined P a || is_retval P a) (size a))], Done tt) /\
  attempts_read (trace_of (print_arg P mem a)) = false.
Proof.
  intros Hr Hv Hp.
  assert (Hs : simple_type (type a) = false).
  { unfold recognized in Hr. apply orb_false_iff in Hr. tauto. }
  assert (E : print_arg P mem a =
              ([EvOut (label a); EvOut "<NYI>"; EvOut (annotation_of P a)], Done tt)).
  { rewrite print_arg_structured by exact Hs. unfold structured_value.
    apply Z.eqb_neq in Hv. rewrite Hv, Hp.
    destruct (type a); try discriminate Hr; reflexivity. }
  rewrite E, annotation_of_text. split; reflexivity.
Qed.

Lemma unrecognized_type_prints_nyi_witness :
  print_arg win32 no_memory named_arg =
    ([EvOut (String (ascii_of_nat 9) "arg 0: "); EvOut "<NYI>";
      EvOut (" (name=FileHandle, type=HANDLE*, size=0x4)" +++ newline)], Done tt) /\
  attempts_read (trace_of (print_arg win32 no_memory named_arg)) = false.
Proof.
  apply (unrecognized_type_prints_nyi win32 no_memory named_arg);
    [reflexivity | discriminate | reflexivity].
Defined.

(** ** Null pointers to simple values *)

(** C10.  A record of a simple type that is a pointer to its value and whose
    value is the null address gets no null placeholder: the line shows the
    zero address; when the pointer is legible (and the size within a machine
    word) a guarded read at address zero is attempted all the same, and when
    that read fails the line is the address and the annotation, nothing more.
    A record of a structured type with a null value gets the placeholder. *)
Theorem null_simple_pointer_prints_zero (P : platform) (mem : memory) (a : drsys_arg_t) :
  simple_type (type a) = true -> is_inlined P a = false -> value a = 0 ->
  (exists tl, trace_of (print_arg P mem a) = EvOut (label a) :: EvOut (PFX P 0) :: tl) /\
  ~ In (EvOut "<null>") (trace_of (print_arg P mem a)) /\
  (legible P a = true -> size a <= ptr_size P ->
   exists ok, In (EvSafeRead 0 (size a) ok) (trace_of (print_arg P mem a))) /\
  (legible P a = true -> size a <= ptr_size P ->
   read_bytes mem 0 (Z.to_nat (size a)) = None ->
   print_arg P mem a =
     ([EvOut (label a); EvOut (PFX P 0); EvSafeRead 0 (size a) false;
       EvOut (annotation_of P a)], Done tt)) /\
  (forall b, simple_type (type b) = false -> value b = 0 ->
   print_arg P mem b =
     ([EvOut (label b); EvOut "<null>"; EvOut (annotation_of P b)], Done tt)).
Proof.
  intros Hs Hi Hv. split; [|split; [|split; [|split]]].
  - simple_record_cases P mem a Hs; try discriminate; rewrite Hv; eexists; reflexivity.
  - apply simple_never_prints_null. exact Hs.
  - intros Hl Hle.
    destruct (read_bytes mem (value a) (Z.to_nat (size a))) as [bs|] eqn:Hrd.
    + rewrite (print_arg_simple_read_succeeds P mem a bs Hs Hi Hl Hle Hrd).
      exists true. rewrite Hv. right. right. left. reflexivity.
    + rewrite (print_arg_simple_read_fails P mem a Hs Hi Hl Hle Hrd).
      exists false. rewrite Hv. right. right. left. reflexivity.
  - intros Hl Hle Hrd. rewrite <- Hv in Hrd |- *.
    apply print_arg_simple_read_fails; assumption.
  - intros b Hb Hvb. apply print_arg_structured_null; assumption.
Qed.

Lemma null_simple_pointer_prints_zero_witness :
  print_arg win32 no_memory null_ptr_arg =
    ([EvOut (label null_ptr_arg); EvOut (PFX win32 0); EvSafeRead 0 (size null_ptr_arg) false;
      EvOut (annotation_of win32 null_ptr_arg)], Done tt).
Proof.
  destruct (null_simple_pointer_prints_zero win32 no_memory null_ptr_arg
              eq_refl eq_refl eq_refl) as [_ [_ [_ [H _]]]].
  apply H; [reflexivity | cbn; lia | reflexivity].
Defined.

(** ** Error classification in the two events *)

Section Classification.

Variable P : platform.
Variable mem : memory.

Lemma drsys_iter_arg_cb_invalid a :
  valid a = false ->
  drsys_iter_arg_cb P mem a = ([EvAssert "arg->valid" "no args should be invalid"], Abort).
Proof. unfold drsys_iter_arg_cb. intros ->. reflexivity. Qed.

Lemma drsys_iter_arg_cb_result a b :
  result_of (drsys_iter_arg_cb P mem a) = Done b -> valid a = true /\ b = true.
Proof.
  destruct (valid a) eqn:Hv.
  - rewrite drsys_iter_arg_cb_valid by exact Hv.
    destruct (if eligible P a then print_arg P mem a else ret tt) as [t [[]| |]]; cbn;
      intros H; try discriminate H. injection H as <-. split; reflexivity.
  - rewrite drsys_iter_arg_cb_invalid by exact Hv. discriminate.
Qed.

Lemma visit_args_done l :
  result_of (visit_args (drsys_iter_arg_cb P mem) l) = Done tt ->
  Forall (fun a => valid a = true) l.
Proof.
  induction l as [|a rest IH]; intros H; [constructor|].
  cbn [visit_args] in H.
  destruct (drsys_iter_arg_cb P mem a) as [t [b| |]] eqn:Hcb; try discriminate H.
  destruct (drsys_iter_arg_cb_result a b) as [Hv ->]; [rewrite Hcb; reflexivity|].
  rewrite bind_done in H. constructor; [exact Hv | apply IH; exact H].
Qed.

Lemma event_pre_syscall_returns s b :
  result_of (event_pre_syscall P mem s) = Done b ->
  result_of (visit_args (drsys_iter_arg_cb P mem) (iter_args s)) = Done tt.
Proof.
  unfold event_pre_syscall, drsys_iterate_args.
  destruct (is_success (cur_syscall_res s)); [|discriminate].
  destruct (is_success (syscall_name_res s)); [|discriminate].
  destruct (is_success (is_known_res s)); [|discriminate].
  cbn [negb]. rewrite !bind_ret_l, bind_OUTPUT.
  destruct (visit_args _ _) as [t [[]| |]]; cbn; [reflexivity | discriminate | discriminate].
Qed.

Lemma event_post_syscall_returns s :
  result_of (event_post_syscall P mem s) = Done tt ->
  result_of (visit_args (drsys_iter_arg_cb P mem) (iter_args s)) = Done tt.
Proof.
  unfold event_post_syscall, drsys_iterate_args.
  destruct (is_success (cur_syscall_res s)); [|discriminate].
  destruct (is_success (succeeded_res s)); [|discriminate].
  cbn [negb]. rewrite !bind_ret_l, bind_OUTPUT.
  destruct (visit_args _ _) as [t [[]| |]]; cbn; [reflexivity | discriminate | discriminate].
Qed.

End Classification.



(** ** Scenarios *)

(** Entry to a call with an input pointer to a word holding 5: the line shows
    the address, the arrow and the value. *)
Example entry_line_of_input_pointer :
  print_arg win32 small_memory in_ptr_arg =
  ([EvOut (String (ascii_of_nat 9) "arg 0: "); EvOut "0x00001000";
    EvSafeRead 4096 4 true; EvOut " => 0x5";
    EvOut (" (type=HANDLE*, size=0x4)" +++ newline)], Done tt).
Proof. reflexivity. Qed.

(** Exit from a failed call whose records are those of [sample_call], now
    seen after the call: the outcome line, then the return value. *)
Example exit_of_failed_call :
  event_post_syscall win32 small_memory
    {| cur_syscall_res := DRMF_SUCCESS; syscall_name_res := DRMF_SUCCESS;
       syscall_name := "NtClose"; is_known_res := DRMF_SUCCESS; known := true;
       succeeded_res := DRMF_SUCCESS; succeeded := false;
       iter_args := [mk_arg false 0 17 DRSYS_TYPE_HANDLE 4 36; retval_arg];
       iterate_res := DRMF_ERROR_DETAILS_UNKNOWN |} =
  ([EvOut ("    failed =>" +++ newline);
    EvOut (String (ascii_of_nat 9) "retval: "); EvOut "0xc0000001";
    EvOut (" (type=HANDLE, size=0x4)" +++ newline)], Done tt).
Proof. reflexivity. Qed.

(** Entry to a call that is not fully known, with a record of an unlisted
    type and an unreadable UNICODE_STRING: the first prints the placeholder,
    the second faults in the plain dereference. *)
Example entry_of_unknown_call :
  event_pre_syscall win32 no_memory
    {| cur_syscall_res := DRMF_SUCCESS; syscall_name_res := DRMF_SUCCESS;
       syscall_name := "NtFoo"; is_known_res := DRMF_SUCCESS; known := false;
       succeeded_res := DRMF_SUCCESS; succeeded := false;
       iter_args := [mk_arg true 0 1 (DRSYS_TYPE_OTHER 40) 4 64;
                     mk_arg true 1 1 DRSYS_TYPE_UNICODE_STRING 8 8192];
       iterate_res := DRMF_SUCCESS |} =
  ([EvOut ("NtFoo (details not all known)" +++ newline);
    EvOut (String (ascii_of_nat 9) "arg 0: "); EvOut "<NYI>";
    EvOut (" (type=HANDLE*, size=0x4)" +++ newline);
    EvOut (String (ascii_of_nat 9) "arg 1: "); EvLoad 8192 2], Fault).
Proof. reflexivity. Qed.

(** * Further properties of the decoder and of the two events *)

(** ** How a run can end *)

Section Ends.

Variable P : platform.
Variable mem : memory.

Lemma explained_ret {A} (a : A) : explained mem (ret a).
Proof. exact I. Qed.

Lemma explained_OUTPUT s : explained mem (OUTPUT s).
Proof. exact I. Qed.

Lemma explained_ASSERT c cond msg : explained mem (ASSERT c cond msg).
Proof.
  destruct c; [exact I|]. exists [], cond, msg. reflexivity.
Qed.

Lemma explained_bind {A B} (m : M A) (f : A -> M B) :
  explained mem m -> (forall a, explained mem (f a)) -> explained mem (bind m f).
Proof.
  destruct m as [t [a| |]]; intros Hm Hf.
  - rewrite bind_done. specialize (Hf a). unfold explained in *.
    destruct (f a) as [t' [b| |]]; cbn in *.
    + exact I.
    + destruct Hf as [t0 [cond [msg E]]]. exists (t ++ t0), cond, msg.
      rewrite E. apply app_assoc.
    + destruct Hf as [t0 [addr [len [E Hrd]]]]. exists (t ++ t0), addr, len.
      rewrite E. split; [apply app_assoc | exact Hrd].
  - exact Hm.
  - exact Hm.
Qed.

Lemma explained_dr_safe_read base len : explained mem (dr_safe_read mem base len).
Proof. unfold dr_safe_read. destruct (read_bytes _ _ _); exact I. Qed.

Lemma explained_load_at addr len : explained mem (load_at mem addr len).
Proof.
  unfold load_at. destruct (read_bytes mem addr (Z.to_nat len)) eqn:Hrd; [exact I|].
  exists [], addr, len. split; [reflexivity | exact Hrd].
Qed.

Lemma explained_load f base : explained mem (load mem f base).
Proof. apply explained_load_at. Qed.

Lemma explained_load_wstr n : forall addr, explained mem (load_wstr P mem n addr).
Proof.
  induction n as [|k IH]; intros addr; cbn [load_wstr]; [exact I|].
  apply explained_bind; [apply explained_load_at|]. intros c.
  destruct (c =? 0); [exact I|].
  apply explained_bind; [apply IH|]. intros rest. exact I.
Qed.

Lemma explained_print_unicode_string us : explained mem (print_unicode_string P mem us).
Proof.
  unfold print_unicode_string. destruct (us =? 0); [exact I|].
  repeat (apply explained_bind; [apply explained_load|]; intros ?).
  apply explained_bind; [|intros; exact I].
  destruct (_ =? 0); [exact I | apply explained_load_wstr].
Qed.

Lemma explained_print_simple_value a lz : explained mem (print_simple_value P mem a lz).
Proof.
  unfold print_simple_value. apply explained_bind; [exact I|]. intros _.
  destruct (_ && _); [|exact I].
  apply explained_bind; [apply explained_ASSERT|]. intros _.
  apply explained_bind; [apply explained_dr_safe_read|]. intros [v|]; exact I.
Qed.

Lemma explained_structured_value a : explained mem (structured_value P mem a).
Proof.
  unfold structured_value.
  destruct (value a =? 0); [exact I|].
  destruct (pre a && negb (is_input P a)); [exact I|].
  destruct (type a); try exact I;
    repeat first [ apply explained_OUTPUT
                 | apply explained_print_unicode_string
                 | apply explained_bind; [|intros ?]
                 | apply explained_load ].
Qed.

Lemma explained_print_arg a : explained mem (print_arg P mem a).
Proof.
  destruct (simple_type (type a)) eqn:Hs.
  - rewrite print_arg_simple by exact Hs.
    apply explained_bind; [exact I|]. intros _.
    apply explained_bind; [apply explained_print_simple_value|]. intros _. exact I.
  - rewrite print_arg_structured by exact Hs.
    apply explained_bind; [exact I|]. intros _.
    apply explained_bind; [apply explained_structured_value|]. intros _. exact I.
Qed.

End Ends.

(** ** The annotation and the end of a line *)

Lemma print_arg_annotation_iff_returns (P : platform) (mem : memory) (a : drsys_arg_t) :
  (exists t, trace_of (print_arg P mem a) = t ++ [EvOut (annotation_of P a)]) <->
  result_of (print_arg P mem a) = Done tt.
Proof.
  split; [|apply print_arg_ends_with_annotation].
  intros [t Ht]. pose proof (explained_print_arg P mem a) as He. unfold explained in He.
  destruct (result_of (print_arg P mem a)) as [[]| |].
  - reflexivity.
  - destruct He as [t' [cond [msg E]]]. rewrite Ht in E.
    apply app_inj_tail in E. destruct E as [_ E]. discriminate E.
  - destruct He as [t' [addr [len [E _]]]]. rewrite Ht in E.
    apply app_inj_tail in E. destruct E as [_ E]. discriminate E.
Qed.

(** C7, as the code has it.  The annotation is the text the four fields
    [arg_name], [type_name], [mode] and [size] determine: the name if there
    is one, the type name or the empty placeholder, the pointer marker unless
    the record is inlined or the return value, and the size.  Two records
    that agree on the four fields have the same annotation, whatever their
    type tags, values and phases and whatever the memory holds.  A line ends
    with the annotation exactly when [print_arg] returns: always for a record
    of a simple type within the size invariant (whether or not its guarded
    read succeeds), never for a line whose decoding aborts or faults. *)
Theorem annotation_from_four_fields (P : platform) (m1 m2 : memory) (a b : drsys_arg_t) :
  arg_name a = arg_name b -> type_name a = type_name b ->
  mode a = mode b -> size a = size b ->
  annotation_of P a =
    annotation_block (arg_name a) (type_name a) (is_inlined P a || is_retval P a) (size a) /\
  annotation_of P b = annotation_of P a /\
  ((exists t, trace_of (print_arg P m1 a) = t ++ [EvOut (annotation_of P a)]) <->
   result_of (print_arg P m1 a) = Done tt) /\
  ((exists t, trace_of (print_arg P m2 b) = t ++ [EvOut (annotation_of P a)]) <->
   result_of (print_arg P m2 b) = Done tt) /\
  (simple_type (type a) = true -> size a <= ptr_size P ->
   result_of (print_arg P m1 a) = Done tt /\ result_of (print_arg P m2 a) = Done tt).
Proof.
  intros Hn Ht Hm Hsz.
  assert (Hab : annotation_of P b = annotation_of P a).
  { unfold annotation_of. rewrite Hn, Ht, Hm, Hsz. reflexivity. }
  split; [apply annotation_of_text|]. split; [exact Hab|]. split; [|split].
  - apply print_arg_annotation_iff_returns.
  - rewrite <- Hab. apply print_arg_annotation_iff_returns.
  - intros Hs Hle. split; apply print_arg_simple_returns; assumption.
Qed.

Lemma annotation_from_four_fields_witness :
  annotation_of win32 in_ptr_arg = " (type=HANDLE*, size=0x4)" +++ newline /\
  annotation_of win32 other_arg = annotation_of win32 in_ptr_arg /\
  (exists t, trace_of (print_arg win32 small_memory in_ptr_arg) =
             t ++ [EvOut (annotation_of win32 in_ptr_arg)]) /\
  (exists t, trace_of (print_arg win32 no_memory other_arg) =
             t ++ [EvOut (annotation_of win32 in_ptr_arg)]).
Proof.
  destruct (annotation_from_four_fields win32 small_memory no_memory in_ptr_arg other_arg
              eq_refl eq_refl eq_refl eq_refl) as [H0 [Hab [H1 [H2 _]]]].
  split; [exact H0|]. split; [exact Hab|]. split; [apply H1 | apply H2]; reflexivity.
Defined.

(** C7 as stated fails: the callback prints a line for the valid record
    [unreadable_string_arg], and that line carries no annotation, because the
    plain dereference of the structure faults first. *)
Lemma faulting_line_has_no_annotation :
  valid unreadable_string_arg = true /\
  ~ (rendered win32 no_memory unreadable_string_arg = true ->
     In (EvOut (annotation_of win32 unreadable_string_arg))
        (trace_of (drsys_iter_arg_cb win32 no_memory unreadable_string_arg))).
Proof.
  split; [reflexivity|]. intros H. specialize (H eq_refl). vm_compute in H.
  destruct H as [H|[H|[]]]; discriminate H.
Qed.

(** ** The outcomes of [print_arg] *)

Lemma plain_never_aborts mem {A} (m : M A) :
  plain m -> explained mem m -> result_of m <> Abort.
Proof.
  unfold plain, explained. intros Hp He Hr. rewrite Hr in He.
  destruct He as [t [cond [msg E]]]. rewrite E in Hp.
  apply Forall_app in Hp. destruct Hp as [_ Hp]. inversion Hp as [|? ? Hx _].
  discriminate Hx.
Qed.

(** X2.  Decoding a record of a simple type never faults, and it aborts in
    exactly one situation: the record is a legible pointer to a value wider
    than a machine word.  Decoding a record of a structured type never
    aborts: it returns or it faults. *)
Theorem print_arg_outcomes (P : platform) (mem : memory) (a : drsys_arg_t) :
  (simple_type (type a) = true ->
   result_of (print_arg P mem a) <> Fault /\
   (result_of (print_arg P mem a) = Abort <->
    (is_inlined P a = false /\ legible P a = true /\ ptr_size P < size a))) /\
  (simple_type (type a) = false -> result_of (print_arg P mem a) <> Abort).
Proof.
  split.
  - intros Hs. simple_record_cases P mem a Hs; cbn [result_of snd];
      (split; [discriminate|]);
      (split;
       [ intros H; try discriminate H; repeat split; try reflexivity; lia
       | intros [H1 [H2 H3]]; try discriminate; try lia; reflexivity ]).
  - intros Hs. apply (plain_never_aborts mem).
    + apply plain_print_arg_structured. exact Hs.
    + apply explained_print_arg.
Qed.

Lemma print_arg_outcomes_witness :
  result_of (print_arg win32 small_memory (mk_arg true 0 1 DRSYS_TYPE_INT 8 4096)) = Abort <->
  (is_inlined win32 (mk_arg true 0 1 DRSYS_TYPE_INT 8 4096) = false /\
   legible win32 (mk_arg true 0 1 DRSYS_TYPE_INT 8 4096) = true /\
   ptr_size win32 < size (mk_arg true 0 1 DRSYS_TYPE_INT 8 4096)).
Proof.
  destruct (print_arg_outcomes win32 small_memory (mk_arg true 0 1 DRSYS_TYPE_INT 8 4096))
    as [H _].
  apply H. reflexivity.
Defined.

(** ** Output-only records before the call *)

(** X3.  Before the call, a record without the input flag never makes the
    decoder touch application memory, whatever its type, value and size: the
    decoder returns, and for a structured type with a non-null value the line
    is the label, the raw address and the annotation. *)
Theorem output_only_untouched_before_call (P : platform) (mem : memory) (a : drsys_arg_t) :
  pre a = true -> is_input P a = false ->
  result_of (print_arg P mem a) = Done tt /\
  attempts_read (trace_of (print_arg P mem a)) = false /\
  (simple_type (type a) = false -> value a <> 0 ->
   trace_of (print_arg P mem a) =
     [EvOut (label a); EvOut (PFX P (value a)); EvOut (annotation_of P a)]).
Proof.
  intros Hp Hin.
  destruct (simple_type (type a)) eqn:Hs.
  - assert (Hl : legible P a = false).
    { unfold legible. rewrite Hp, Hin. reflexivity. }
    destruct (is_inlined P a) eqn:Hi.
    + rewrite (print_arg_simple_inlined P mem a Hs Hi).
      split; [reflexivity|]. split; [reflexivity|]. discriminate.
    + rewrite (print_arg_simple_illegible P mem a Hs Hi Hl).
      split; [reflexivity|]. split; [reflexivity|]. discriminate.
  - rewrite print_arg_structured by exact Hs. unfold structured_value.
    rewrite Hp, Hin. cbn [andb negb].
    destruct (value a =? 0) eqn:Hv.
    + split; [reflexivity|]. split; [reflexivity|].
      intros _ Hnz. apply Z.eqb_eq in Hv. contradiction.
    + split; [reflexivity|]. split; reflexivity.
Qed.

Lemma output_only_untouched_before_call_witness :
  result_of (print_arg win32 no_memory (mk_arg true 1 2 DRSYS_TYPE_IO_STATUS_BLOCK 8 8192))
    = Done tt /\
  attempts_read
    (trace_of (print_arg win32 no_memory (mk_arg true 1 2 DRSYS_TYPE_IO_STATUS_BLOCK 8 8192)))
    = false /\
  trace_of (print_arg win32 no_memory (mk_arg true 1 2 DRSYS_TYPE_IO_STATUS_BLOCK 8 8192)) =
    [EvOut (label (mk_arg true 1 2 DRSYS_TYPE_IO_STATUS_BLOCK 8 8192));
     EvOut (PFX win32 8192);
     EvOut (annotation_of win32 (mk_arg true 1 2 DRSYS_TYPE_IO_STATUS_BLOCK 8 8192))].
Proof.
  destruct (output_only_untouched_before_call win32 no_memory
              (mk_arg true 1 2 DRSYS_TYPE_IO_STATUS_BLOCK 8 8192) eq_refl eq_refl)
    as [H1 [H2 H3]].
  split; [exact H1|]. split; [exact H2|]. apply H3; [reflexivity | discriminate].
Defined.

(** ** UNICODE_STRING *)

Lemma trace_bind_ret_fun {A B} (m : M A) (g : A -> B) :
  trace_of (bind m (fun x => ret (g x))) = trace_of m.
Proof.
  destruct m as [t [x| |]]; cbn; [apply app_nil_r | reflexivity | reflexivity].
Qed.

Lemma result_bind_ret_fun {A B} (m : M A) (g : A -> B) (b : B) :
  result_of (bind m (fun x => ret (g x))) = Done b ->
  exists x, result_of m = Done x /\ g x = b.
Proof.
  destruct m as [t [x| |]]; cbn; intros H; try discriminate H.
  injection H as <-. exists x. split; reflexivity.
Qed.

Section UnicodeString.

Variable P : platform.
Variable mem : memory.

Lemma load_field_holds f base v :
  field_holds mem f base v ->
  load mem f base = ([EvLoad (base + f_off f) (f_size f)], Done v).
Proof.
  intros [bs [Hrd Hv]]. unfold load, load_at. rewrite Hrd, Hv. reflexivity.
Qed.

Lemma load_at_trace addr len : trace_of (load_at mem addr len) = [EvLoad addr len].
Proof. unfold load_at. destruct (read_bytes _ _ _); reflexivity. Qed.

(** [%.*S] with precision [n] looks at no character beyond the first [n]. *)
Lemma load_wstr_within n :
  forall addr e, In e (trace_of (load_wstr P mem n addr)) ->
  exists k, (k < n)%nat /\ e = EvLoad (addr + Z.of_nat k * wchar_size P) (wchar_size P).
Proof.
  induction n as [|n IH]; intros addr e Hin; cbn [load_wstr] in Hin; [destruct Hin|].
  assert (Hhead : forall f : Z -> M (list Z),
            In e (trace_of (bind (load_at mem addr (wchar_size P)) f)) ->
            e = EvLoad addr (wchar_size P) \/
            exists c, In e (trace_of (f c))).
  { intros f. unfold load_at. destruct (read_bytes _ _ _) as [bs|].
    - rewrite bind_done. cbn. intros [H|H]; [left; symmetry; exact H|].
      right. eexists. exact H.
    - cbn. intros [H|[]]. left. symmetry. exact H. }
  apply Hhead in Hin. destruct Hin as [->|[c Hin]].
  - exists 0%nat. split; [lia|]. f_equal. cbn. lia.
  - destruct (c =? 0); [destruct Hin|]. rewrite trace_bind_ret_fun in Hin.
    destruct (IH _ _ Hin) as [k [Hk ->]]. exists (S k). split; [lia|].
    f_equal. rewrite Nat2Z.inj_succ, Z.mul_succ_l. lia.
Qed.

(** What [%.*S] delivers: at most [n] characters, none of them NUL, each the
    character of the buffer at its index. *)
Lemma load_wstr_result n :
  forall addr chars, result_of (load_wstr P mem n addr) = Done chars ->
  (List.length chars <= n)%nat /\
  Forall (fun c => c <> 0) chars /\
  (forall i, (i < List.length chars)%nat ->
     result_of (load_at mem (addr + Z.of_nat i * wchar_size P) (wchar_size P)) =
     Done (nth i chars 0)) /\
  ((List.length chars < n)%nat ->
     result_of (load_at mem (addr + Z.of_nat (List.length chars) * wchar_size P) (wchar_size P)) =
     Done 0).
Proof.
  induction n as [|n IH]; intros addr chars H; cbn [load_wstr] in H.
  - injection H as <-. cbn. repeat split; try lia; constructor.
  - destruct (load_at mem addr (wchar_size P)) as [t [c| |]] eqn:Hld;
      try discriminate H.
    rewrite bind_done in H. cbn [result_of snd] in H.
    destruct (c =? 0) eqn:Hc.
    + injection H as <-. apply Z.eqb_eq in Hc. subst c. cbn [List.length].
      repeat split; try lia; try constructor.
      intros _. cbn. rewrite Z.add_0_r, Hld. reflexivity.
    + apply result_bind_ret_fun in H. destruct H as [rest [Hrest <-]].
      destruct (IH _ _ Hrest) as [Hlen [Hnz [Hnth Hstop]]].
      apply Z.eqb_neq in Hc. cbn [List.length]. split; [lia|]. split; [constructor; assumption|].
      split.
      * intros [|i] Hi.
        -- cbn. rewrite Z.add_0_r, Hld. reflexivity.
        -- cbn [nth]. rewrite <- (Hnth i) by lia. f_equal. f_equal.
           rewrite Nat2Z.inj_succ, Z.mul_succ_l. lia.
      * intros Hlt. rewrite <- Hstop by lia. f_equal. f_equal.
        rewrite Nat2Z.inj_succ, Z.mul_succ_l. lia.
Qed.

End UnicodeString.

(** X4.  Printing a UNICODE_STRING never reads the buffer past the declared
    length: every read is a plain load of one of the three fields of the
    structure or of one of the first [Length / sizeof(wchar_t)] characters of
    the buffer. *)
Theorem unicode_string_reads_within_length (P : platform) (mem : memory)
    (us len buf : Z) (e : event) :
  us <> 0 ->
  field_holds mem (us_Length P) us len ->
  field_holds mem (us_Buffer P) us buf ->
  In e (trace_of (print_unicode_string P mem us)) -> is_read e = true ->
  e = EvLoad (us + f_off (us_Length P)) (f_size (us_Length P)) \/
  e = EvLoad (us + f_off (us_MaximumLength P)) (f_size (us_MaximumLength P)) \/
  e = EvLoad (us + f_off (us_Buffer P)) (f_size (us_Buffer P)) \/
  exists k, (k < Z.to_nat (len / wchar_size P))%nat /\
            e = EvLoad (buf + Z.of_nat k * wchar_size P) (wchar_size P).
Proof.
  intros Hus Hlen Hbuf Hin Hr. unfold print_unicode_string in Hin.
  apply Z.eqb_neq in Hus. rewrite Hus in Hin.
  rewrite (load_field_holds mem _ _ _ Hlen), bind_done in Hin.
  cbn [trace_of fst app In] in Hin. destruct Hin as [<-|Hin]; [left; reflexivity|].
  right. unfold load at 1 in Hin.
  destruct (load_at mem (us + f_off (us_MaximumLength P)) (f_size (us_MaximumLength P)))
    as [t [maxlen| |]] eqn:Hmax;
    pose proof (load_at_trace mem (us + f_off (us_MaximumLength P))
                  (f_size (us_MaximumLength P))) as Ht;
    rewrite Hmax in Ht; cbn [trace_of fst] in Ht; subst t.
  2,3: cbn in Hin; destruct Hin as [<-|[]]; left; reflexivity.
  rewrite bind_done in Hin. cbn [trace_of fst app In] in Hin.
  destruct Hin as [<-|Hin]; [left; reflexivity|]. right.
  rewrite (load_field_holds mem _ _ _ Hbuf), bind_done in Hin.
  cbn [trace_of fst app In] in Hin. destruct Hin as [<-|Hin]; [left; reflexivity|].
  right. destruct (buf =? 0).
  - rewrite bind_ret_l in Hin. cbn in Hin. destruct Hin as [<-|[]]. discriminate Hr.
  - destruct (load_wstr P mem (Z.to_nat (len / wchar_size P)) buf) as [t [chars| |]] eqn:Hw;
      pose proof (load_wstr_within P mem (Z.to_nat (len / wchar_size P)) buf e) as Hb;
      rewrite Hw in Hb; cbn [trace_of fst] in Hb.
    + rewrite bind_done in Hin. cbn [trace_of fst] in Hin. apply in_app_or in Hin.
      destruct Hin as [Hin|Hin]; [exact (Hb Hin)|].
      cbn in Hin. destruct Hin as [<-|[]]. discriminate Hr.
    + exact (Hb Hin).
    + exact (Hb Hin).
Qed.

Lemma unicode_string_reads_within_length_witness :
  EvLoad 12290 2 = EvLoad (8192 + f_off (us_Length win32)) (f_size (us_Length win32)) \/
  EvLoad 12290 2 =
    EvLoad (8192 + f_off (us_MaximumLength win32)) (f_size (us_MaximumLength win32)) \/
  EvLoad 12290 2 = EvLoad (8192 + f_off (us_Buffer win32)) (f_size (us_Buffer win32)) \/
  exists k, (k < Z.to_nat (4 / wchar_size win32))%nat /\
            EvLoad 12290 2 = EvLoad (12288 + Z.of_nat k * wchar_size win32) (wchar_size win32).
Proof.
  apply (unicode_string_reads_within_length win32 string_memory 8192 4 12288 (EvLoad 12290 2)).
  - discriminate.
  - exists [4; 0]. split; reflexivity.
  - exists [0; 48; 0; 0]. split; reflexivity.
  - vm_compute. do 4 right. left. reflexivity.
  - reflexivity.
Defined.

(** X5.  A UNICODE_STRING whose buffer pointer is null is printed without
    touching any buffer: after the three fields are read, the text between
    the quotes is the wide placeholder cut to [Length / sizeof(wchar_t)]
    characters (nothing at all for an empty string). *)
Theorem unicode_string_null_buffer (P : platform) (mem : memory) (us len maxlen : Z) :
  us <> 0 ->
  field_holds mem (us_Length P) us len ->
  field_holds mem (us_MaximumLength P) us maxlen ->
  field_holds mem (us_Buffer P) us 0 ->
  print_unicode_string P mem us =
  ([EvLoad (us + f_off (us_Length P)) (f_size (us_Length P));
    EvLoad (us + f_off (us_MaximumLength P)) (f_size (us_MaximumLength P));
    EvLoad (us + f_off (us_Buffer P)) (f_size (us_Buffer P));
    EvOut (dec len +++ "/" +++ dec maxlen +++ " " +++ dquote +++
           wide_text P (firstn (Z.to_nat (len / wchar_size P)) wide_null) +++ dquote)],
   Done tt).
Proof.
  intros Hus Hlen Hmax Hbuf. unfold print_unicode_string.
  apply Z.eqb_neq in Hus. rewrite Hus.
  rewrite (load_field_holds mem _ _ _ Hlen), bind_done.
  rewrite (load_field_holds mem _ _ _ Hmax), bind_done.
  rewrite (load_field_holds mem _ _ _ Hbuf), bind_done.
  reflexivity.
Qed.

Lemma unicode_string_null_buffer_witness :
  print_unicode_string win32 null_buffer_memory 8192 =
  ([EvLoad 8192 2; EvLoad 8194 2; EvLoad 8196 4;
    EvOut ("4/8 " +++ dquote +++ "<n" +++ dquote)], Done tt).
Proof.
  apply (unicode_string_null_buffer win32 null_buffer_memory 8192 4 8).
  - discriminate.
  - exists [4; 0]. split; reflexivity.
  - exists [8; 0]. split; reflexivity.
  - exists [0; 0; 0; 0]. split; reflexivity.
Defined.

(** X6.  When printing a UNICODE_STRING with a buffer returns, the line ends
    with the two lengths and the quoted text of characters that are, in
    order, the characters of the buffer: at most [Length / sizeof(wchar_t)]
    of them, none a NUL, stopping early only at a NUL of the buffer. *)
Theorem unicode_string_text (P : platform) (mem : memory) (us len maxlen buf : Z) :
  us <> 0 -> buf <> 0 ->
  field_holds mem (us_Length P) us len ->
  field_holds mem (us_MaximumLength P) us maxlen ->
  field_holds mem (us_Buffer P) us buf ->
  result_of (print_unicode_string P mem us) = Done tt ->
  exists chars t,
    trace_of (print_unicode_string P mem us) =
      t ++ [EvOut (dec len +++ "/" +++ dec maxlen +++ " " +++ dquote +++
                   wide_text P chars +++ dquote)] /\
    (List.length chars <= Z.to_nat (len / wchar_size P))%nat /\
    Forall (fun c => c <> 0) chars /\
    (forall i, (i < List.length chars)%nat ->
       result_of (load_at mem (buf + Z.of_nat i * wchar_size P) (wchar_size P)) =
       Done (nth i chars 0)) /\
    ((List.length chars < Z.to_nat (len / wchar_size P))%nat ->
       result_of (load_at mem (buf + Z.of_nat (List.length chars) * wchar_size P)
                    (wchar_size P)) = Done 0).
Proof.
  intros Hus Hnz Hlen Hmax Hbuf. unfold print_unicode_string.
  apply Z.eqb_neq in Hus, Hnz. rewrite Hus.
  rewrite (load_field_holds mem _ _ _ Hlen), bind_done.
  rewrite (load_field_holds mem _ _ _ Hmax), bind_done.
  rewrite (load_field_holds mem _ _ _ Hbuf), bind_done.
  rewrite Hnz.
  destruct (load_wstr P mem (Z.to_nat (len / wchar_size P)) buf) as [t [chars| |]] eqn:Hw;
    cbn; intros H; try discriminate H.
  exists chars. eexists. split.
  - rewrite !app_comm_cons. reflexivity.
  - apply (load_wstr_result P mem _ buf chars). rewrite Hw. reflexivity.
Qed.

Lemma unicode_string_text_witness :
  exists chars t,
    trace_of (print_unicode_string win32 string_memory 8192) =
      t ++ [EvOut (dec 4 +++ "/" +++ dec 8 +++ " " +++ dquote +++
                   wide_text win32 chars +++ dquote)] /\
    (List.length chars <= Z.to_nat (4 / wchar_size win32))%nat /\
    Forall (fun c => c <> 0) chars /\
    (forall i, (i < List.length chars)%nat ->
       result_of (load_at string_memory (12288 + Z.of_nat i * wchar_size win32)
                    (wchar_size win32)) = Done (nth i chars 0)) /\
    ((List.length chars < Z.to_nat (4 / wchar_size win32))%nat ->
       result_of (load_at string_memory
                    (12288 + Z.of_nat (List.length chars) * wchar_size win32)
                    (wchar_size win32)) = Done 0).
Proof.
  apply (unicode_string_text win32 string_memory 8192 4 8 12288).
  - discriminate.
  - discriminate.
  - exists [4; 0]. split; reflexivity.
  - exists [8; 0]. split; reflexivity.
  - exists [0; 48; 0; 0]. split; reflexivity.
  - reflexivity.
Defined.

Example unicode_string_line :
  print_unicode_string win32 string_memory 8192 =
  ([EvLoad 8192 2; EvLoad 8194 2; EvLoad 8196 4; EvLoad 12288 2; EvLoad 12290 2;
    EvOut ("4/8 " +++ dquote +++ "hi" +++ dquote)], Done tt).
Proof. reflexivity. Qed.

(** ** What the two events print *)

Section Events.

Variable P : platform.
Variable mem : memory.

Lemma drsys_iter_arg_cb_trace a :
  valid a = true ->
  trace_of (drsys_iter_arg_cb P mem a) =
  if eligible P a then trace_of (print_arg P mem a) else [].
Proof.
  intros Hv. rewrite drsys_iter_arg_cb_valid by exact Hv.
  rewrite trace_bind_ret. destruct (eligible P a); reflexivity.
Qed.

Lemma visit_args_printed_lines l :
  result_of (visit_args (drsys_iter_arg_cb P mem) l) = Done tt ->
  trace_of (visit_args (drsys_iter_arg_cb P mem) l) = printed_lines P mem l.
Proof.
  induction l as [|a rest IH]; intros H; [reflexivity|].
  cbn [visit_args] in H |- *.
  destruct (drsys_iter_arg_cb P mem a) as [t [b| |]] eqn:Hcb; try discriminate H.
  destruct (drsys_iter_arg_cb_result P mem a b) as [Hv ->]; [rewrite Hcb; reflexivity|].
  pose proof (drsys_iter_arg_cb_trace a Hv) as Ht. rewrite Hcb in Ht.
  rewrite bind_done in H |- *.
  unfold trace_of, result_of in *. cbn [fst snd] in *.
  rewrite (IH H), Ht. reflexivity.
Qed.

Lemma drsys_iter_arg_cb_simple_returns a :
  valid a = true -> simple_type (type a) = true -> size a <= ptr_size P ->
  result_of (drsys_iter_arg_cb P mem a) = Done true.
Proof.
  intros Hv Hs Hle. rewrite drsys_iter_arg_cb_valid by exact Hv.
  destruct (eligible P a); [|reflexivity].
  destruct (print_arg_simple_returns P mem a Hs Hle) as [Hd _].
  destruct (print_arg P mem a) as [t r]. cbn in Hd. subst r. reflexivity.
Qed.

Lemma visit_args_simple_returns l :
  Forall (fun a => valid a = true /\ simple_type (type a) = true /\ size a <= ptr_size P) l ->
  result_of (visit_args (drsys_iter_arg_cb P mem) l) = Done tt.
Proof.
  induction 1 as [|a rest [Hv [Hs Hle]] _ IH]; [reflexivity|].
  cbn [visit_args].
  pose proof (drsys_iter_arg_cb_simple_returns a Hv Hs Hle) as Hd.
  destruct (drsys_iter_arg_cb P mem a) as [t r]. cbn in Hd. subst r.
  rewrite bind_done. exact IH.
Qed.

(** The entry event once the three lookups have succeeded. *)
Lemma event_pre_syscall_after_lookups s :
  is_success (cur_syscall_res s) = true ->
  is_success (syscall_name_res s) = true ->
  is_success (is_known_res s) = true ->
  event_pre_syscall P mem s =
  (OUTPUT (header_line s) ;;
   visit_args (drsys_iter_arg_cb P mem) (iter_args s) ;;
   (if tolerated (iterate_res s) then ret tt
    else ASSERT false "false" "drsys_iterate_args failed pre-syscall") ;;
   ret true).
Proof.
  intros H1 H2 H3. unfold event_pre_syscall, drsys_iterate_args, header_line, tolerated.
  rewrite H1, H2, H3. cbn [negb]. rewrite !bind_ret_l, !bind_OUTPUT.
  destruct (visit_args _ _) as [t [[]| |]]; try reflexivity.
  destruct (is_success (iterate_res s)) eqn:E1, (is_details_unknown (iterate_res s)) eqn:E2;
    cbn; rewrite ?E1, ?E2; cbn; rewrite ?app_nil_r; reflexivity.
Qed.

(** The exit event once the two lookups have succeeded. *)
Lemma event_post_syscall_after_lookups s :
  is_success (cur_syscall_res s) = true ->
  is_success (succeeded_res s) = true ->
  event_post_syscall P mem s =
  (OUTPUT (outcome_line s) ;;
   visit_args (drsys_iter_arg_cb P mem) (iter_args s) ;;
   (if tolerated (iterate_res s) then ret tt
    else ASSERT false "false" "drsys_iterate_args failed post-syscall")).
Proof.
  intros H1 H2. unfold event_post_syscall, drsys_iterate_args, outcome_line, tolerated.
  rewrite H1, H2. cbn [negb]. rewrite !bind_ret_l, !bind_OUTPUT.
  destruct (visit_args _ _) as [t [[]| |]]; try reflexivity.
  destruct (is_success (iterate_res s)) eqn:E1, (is_details_unknown (iterate_res s)) eqn:E2;
    cbn; rewrite ?E1, ?E2; cbn; rewrite ?app_nil_r; reflexivity.
Qed.

End Events.

(** X7.  Whenever the entry event returns, it returns true (the call is
    never vetoed), all three lookups had succeeded, the iteration status was
    success or details-unknown, every record was valid, and what was printed
    is exactly the header line followed by the lines of the eligible records,
    in the order of the records: no record is skipped and nothing else is
    printed. *)
Theorem entry_event_when_it_returns (P : platform) (mem : memory) (s : drsys_answers)
    (b : bool) :
  result_of (event_pre_syscall P mem s) = Done b ->
  b = true /\
  is_success (cur_syscall_res s) = true /\
  is_success (syscall_name_res s) = true /\
  is_success (is_known_res s) = true /\
  tolerated (iterate_res s) = true /\
  Forall (fun a => valid a = true) (iter_args s) /\
  trace_of (event_pre_syscall P mem s) =
    EvOut (header_line s) :: printed_lines P mem (iter_args s).
Proof.
  intros H.
  destruct (is_success (cur_syscall_res s)) eqn:H1.
  2:{ unfold event_pre_syscall in H. rewrite H1 in H. discriminate H. }
  destruct (is_success (syscall_name_res s)) eqn:H2.
  2:{ unfold event_pre_syscall in H. rewrite H1, H2 in H. discriminate H. }
  destruct (is_success (is_known_res s)) eqn:H3.
  2:{ unfold event_pre_syscall in H. rewrite H1, H2, H3 in H. discriminate H. }
  pose proof (event_pre_syscall_returns P mem s b H) as Hv.
  pose proof (visit_args_printed_lines P mem _ Hv) as Ht.
  pose proof (visit_args_done P mem _ Hv) as Hall.
  rewrite (event_pre_syscall_after_lookups P mem s H1 H2 H3) in H |- *.
  rewrite bind_OUTPUT in H |- *.
  destruct (visit_args (drsys_iter_arg_cb P mem) (iter_args s)) as [t [[]| |]];
    try discriminate Hv.
  cbn [trace_of fst] in Ht. subst t. rewrite bind_done in H |- *.
  destruct (tolerated (iterate_res s)); [|discriminate H].
  cbn in H. injection H as <-. cbn. rewrite !app_nil_r. repeat split; assumption.
Qed.

Lemma entry_event_when_it_returns_witness :
  true = true /\
  is_success (cur_syscall_res sample_call) = true /\
  is_success (syscall_name_res sample_call) = true /\
  is_success (is_known_res sample_call) = true /\
  tolerated (iterate_res sample_call) = true /\
  Forall (fun a => valid a = true) (iter_args sample_call) /\
  trace_of (event_pre_syscall win32 small_memory sample_call) =
    EvOut (header_line sample_call) ::
    printed_lines win32 small_memory (iter_args sample_call).
Proof.
  apply (entry_event_when_it_returns win32 small_memory sample_call true). reflexivity.
Defined.

(** X8.  Whenever the exit event returns, both lookups had succeeded, the
    iteration status was success or details-unknown, every record was valid,
    and what was printed is exactly the outcome line (succeeded or failed)
    followed by the lines of the eligible records, in the order of the
    records. *)
Theorem exit_event_when_it_returns (P : platform) (mem : memory) (s : drsys_answers) :
  result_of (event_post_syscall P mem s) = Done tt ->
  is_success (cur_syscall_res s) = true /\
  is_success (succeeded_res s) = true /\
  tolerated (iterate_res s) = true /\
  Forall (fun a => valid a = true) (iter_args s) /\
  trace_of (event_post_syscall P mem s) =
    EvOut (outcome_line s) :: printed_lines P mem (iter_args s).
Proof.
  intros H.
  destruct (is_success (cur_syscall_res s)) eqn:H1.
  2:{ unfold event_post_syscall in H. rewrite H1 in H. discriminate H. }
  destruct (is_success (succeeded_res s)) eqn:H2.
  2:{ unfold event_post_syscall in H. rewrite H1, H2 in H. discriminate H. }
  pose proof (event_post_syscall_returns P mem s H) as Hv.
  pose proof (visit_args_printed_lines P mem _ Hv) as Ht.
  pose proof (visit_args_done P mem _ Hv) as Hall.
  rewrite (event_post_syscall_after_lookups P mem s H1 H2) in H |- *.
  rewrite bind_OUTPUT in H |- *.
  destruct (visit_args (drsys_iter_arg_cb P mem) (iter_args s)) as [t [[]| |]];
    try discriminate Hv.
  cbn [trace_of fst] in Ht. subst t. rewrite bind_done in H |- *.
  destruct (tolerated (iterate_res s)); [|discriminate H].
  cbn. rewrite !app_nil_r. repeat split; assumption.
Qed.

Lemma exit_event_when_it_returns_witness :
  is_success (cur_syscall_res sample_call) = true /\
  is_success (succeeded_res sample_call) = true /\
  tolerated (iterate_res sample_call) = true /\
  Forall (fun a => valid a = true) (iter_args sample_call) /\
  trace_of (event_post_syscall win32 small_memory sample_call) =
    EvOut (outcome_line sample_call) ::
    printed_lines win32 small_memory (iter_args sample_call).
Proof.
  apply (exit_event_when_it_returns win32 small_memory sample_call). reflexivity.
Defined.

(** ** The causes of an abnormal end *)

Section Causes.

Variable P : platform.
Variable mem : memory.

Lemma print_arg_fault_cause a :
  result_of (print_arg P mem a) = Fault ->
  structured_type (type a) = true /\ value a <> 0 /\
  (pre a = false \/ is_input P a = true).
Proof.
  destruct (simple_type (type a)) eqn:Hs.
  - simple_record_cases P mem a Hs; discriminate.
  - rewrite print_arg_structured by exact Hs. unfold structured_value.
    destruct (value a =? 0) eqn:Hv; [discriminate|].
    destruct (pre a && negb (is_input P a)) eqn:Hp; [discriminate|].
    intros H. apply Z.eqb_neq in Hv. split; [|split; [exact Hv|]].
    + destruct (type a); try discriminate Hs; try reflexivity; discriminate H.
    + destruct (pre a), (is_input P a); cbn in Hp; try discriminate Hp; tauto.
Qed.

Lemma print_arg_abort_cause a :
  result_of (print_arg P mem a) = Abort ->
  simple_type (type a) = true /\ is_inlined P a = false /\ legible P a = true /\
  ptr_size P < size a.
Proof.
  destruct (simple_type (type a)) eqn:Hs.
  - simple_record_cases P mem a Hs; try discriminate.
    intros _. repeat split; lia.
  - intros H. exfalso. revert H. apply (plain_never_aborts mem).
    + apply plain_print_arg_structured. exact Hs.
    + apply explained_print_arg.
Qed.

Lemma drsys_iter_arg_cb_fault_cause a :
  result_of (drsys_iter_arg_cb P mem a) = Fault ->
  valid a = true /\ eligible P a = true /\ result_of (print_arg P mem a) = Fault.
Proof.
  destruct (valid a) eqn:Hv.
  - rewrite drsys_iter_arg_cb_valid by exact Hv. destruct (eligible P a); [|discriminate].
    destruct (print_arg P mem a) as [t [[]| |]]; cbn; intros H; try discriminate H.
    repeat split.
  - rewrite drsys_iter_arg_cb_invalid by exact Hv. discriminate.
Qed.

Lemma drsys_iter_arg_cb_abort_cause a :
  result_of (drsys_iter_arg_cb P mem a) = Abort ->
  valid a = false \/ (eligible P a = true /\ result_of (print_arg P mem a) = Abort).
Proof.
  destruct (valid a) eqn:Hv; [|left; reflexivity].
  rewrite drsys_iter_arg_cb_valid by exact Hv. destruct (eligible P a); [|discriminate].
  destruct (print_arg P mem a) as [t [[]| |]]; cbn; intros H; try discriminate H.
  right. split; reflexivity.
Qed.

Lemma visit_args_abnormal l (r : outcome unit) :
  result_of (visit_args (drsys_iter_arg_cb P mem) l) = r -> r <> Done tt ->
  exists a, In a l /\
    match r with
    | Fault => result_of (drsys_iter_arg_cb P mem a) = Fault
    | _ => result_of (drsys_iter_arg_cb P mem a) = Abort
    end.
Proof.
  induction l as [|a rest IH]; intros Hr Hn.
  - cbn in Hr. subst r. contradiction.
  - cbn [visit_args] in Hr.
    destruct (drsys_iter_arg_cb P mem a) as [t [b| |]] eqn:Hcb.
    + destruct (drsys_iter_arg_cb_result P mem a b) as [_ ->]; [rewrite Hcb; reflexivity|].
      rewrite bind_done in Hr. cbn [result_of snd] in Hr.
      destruct (IH Hr Hn) as [x [Hin Hx]]. exists x. split; [right; exact Hin | exact Hx].
    + cbn in Hr. subst r. exists a. split; [left; reflexivity|]. rewrite Hcb. reflexivity.
    + cbn in Hr. subst r. exists a. split; [left; reflexivity|]. rewrite Hcb. reflexivity.
Qed.

Lemma visit_args_fault_cause l :
  result_of (visit_args (drsys_iter_arg_cb P mem) l) = Fault ->
  exists a, In a l /\ fault_cause P mem a.
Proof.
  intros H. destruct (visit_args_abnormal l Fault H) as [a [Hin Ha]]; [discriminate|].
  exists a. split; [exact Hin|].
  destruct (drsys_iter_arg_cb_fault_cause a Ha) as [Hv [He Hp]].
  destruct (print_arg_fault_cause a Hp) as [Hs [Hnz Hdir]].
  repeat split; assumption.
Qed.

Lemma visit_args_abort_cause l :
  result_of (visit_args (drsys_iter_arg_cb P mem) l) = Abort ->
  exists a, In a l /\ abort_cause P a.
Proof.
  intros H. destruct (visit_args_abnormal l Abort H) as [a [Hin Ha]]; [discriminate|].
  exists a. split; [exact Hin|].
  destruct (drsys_iter_arg_cb_abort_cause a Ha) as [Hv|[He Hp]]; [left; exact Hv|].
  right. destruct (print_arg_abort_cause a Hp) as [Hs [Hi [Hl Hsz]]].
  repeat split; assumption.
Qed.

End Causes.

(** X1.  Every abnormal end of the two events has one of the causes the code
    provides.  An event faults only while printing a valid, eligible record
    of one of the four structured types whose value is not null and which is
    not an output-only pointer seen before the call; a record of a simple
    type never faults an event, its memory being read through the guarded
    read.  An event aborts only when a lookup failed, when the iteration
    status is neither success nor details-unknown, or at a record that is
    invalid or is a legible pointer to a simple value wider than a machine
    word. *)
Theorem abnormal_end_is_accounted_for (P : platform) (mem : memory) (s : drsys_answers) :
  (result_of (event_pre_syscall P mem s) = Fault \/
   result_of (event_post_syscall P mem s) = Fault ->
   exists a, In a (iter_args s) /\ fault_cause P mem a) /\
  (result_of (event_pre_syscall P mem s) = Abort ->
   is_success (cur_syscall_res s) = false \/
   is_success (syscall_name_res s) = false \/
   is_success (is_known_res s) = false \/
   tolerated (iterate_res s) = false \/
   exists a, In a (iter_args s) /\ abort_cause P a) /\
  (result_of (event_post_syscall P mem s) = Abort ->
   is_success (cur_syscall_res s) = false \/
   is_success (succeeded_res s) = false \/
   tolerated (iterate_res s) = false \/
   exists a, In a (iter_args s) /\ abort_cause P a).
Proof.
  split; [|split].
  - intros [H|H].
    + destruct (is_success (cur_syscall_res s)) eqn:H1.
      2:{ unfold event_pre_syscall in H. rewrite H1 in H. discriminate H. }
      destruct (is_success (syscall_name_res s)) eqn:H2.
      2:{ unfold event_pre_syscall in H. rewrite H1, H2 in H. discriminate H. }
      destruct (is_success (is_known_res s)) eqn:H3.
      2:{ unfold event_pre_syscall in H. rewrite H1, H2, H3 in H. discriminate H. }
      rewrite (event_pre_syscall_after_lookups P mem s H1 H2 H3), bind_OUTPUT in H.
      apply (visit_args_fault_cause P mem).
      destruct (visit_args (drsys_iter_arg_cb P mem) (iter_args s)) as [t [[]| |]];
        try reflexivity; try discriminate H.
      destruct (tolerated (iterate_res s)); discriminate H.
    + destruct (is_success (cur_syscall_res s)) eqn:H1.
      2:{ unfold event_post_syscall in H. rewrite H1 in H. discriminate H. }
      destruct (is_success (succeeded_res s)) eqn:H2.
      2:{ unfold event_post_syscall in H. rewrite H1, H2 in H. discriminate H. }
      rewrite (event_post_syscall_after_lookups P mem s H1 H2), bind_OUTPUT in H.
      apply (visit_args_fault_cause P mem).
      destruct (visit_args (drsys_iter_arg_cb P mem) (iter_args s)) as [t [[]| |]];
        try reflexivity; try discriminate H.
      destruct (tolerated (iterate_res s)); discriminate H.
  - intros H.
    destruct (is_success (cur_syscall_res s)) eqn:H1; [|left; reflexivity].
    destruct (is_success (syscall_name_res s)) eqn:H2; [|right; left; reflexivity].
    destruct (is_success (is_known_res s)) eqn:H3; [|right; right; left; reflexivity].
    destruct (tolerated (iterate_res s)) eqn:H4; [|right; right; right; left; reflexivity].
    do 4 right. apply (visit_args_abort_cause P mem).
    rewrite (event_pre_syscall_after_lookups P mem s H1 H2 H3), bind_OUTPUT, H4 in H.
    destruct (visit_args (drsys_iter_arg_cb P mem) (iter_args s)) as [t [[]| |]];
      try reflexivity; discriminate H.
  - intros H.
    destruct (is_success (cur_syscall_res s)) eqn:H1; [|left; reflexivity].
    destruct (is_success (succeeded_res s)) eqn:H2; [|right; left; reflexivity].
    destruct (tolerated (iterate_res s)) eqn:H4; [|right; right; left; reflexivity].
    do 3 right. apply (visit_args_abort_cause P mem).
    rewrite (event_post_syscall_after_lookups P mem s H1 H2), bind_OUTPUT, H4 in H.
    destruct (visit_args (drsys_iter_arg_cb P mem) (iter_args s)) as [t [[]| |]];
      try reflexivity; discriminate H.
Qed.

Lemma abnormal_end_is_accounted_for_witness :
  exists a, In a (iter_args faulting_call) /\ fault_cause win32 no_memory a.
Proof.
  destruct (abnormal_end_is_accounted_for win32 no_memory faulting_call) as [H _].
  apply H. left. reflexivity.
Defined.

(** X9.  A call whose lookups succeed, whose iteration status is success or
    details-unknown and whose records are all valid, of simple types and
    within a machine word is always traced to the end, whatever the memory
    holds: the entry event prints the header and the lines of the eligible
    records and returns true, and (when the outcome lookup succeeds) the exit
    event prints the outcome line and the lines of the eligible records and
    returns. *)
Theorem simple_call_traced_to_the_end (P : platform) (mem : memory) (s : drsys_answers) :
  is_success (cur_syscall_res s) = true ->
  tolerated (iterate_res s) = true ->
  Forall (fun a => valid a = true /\ simple_type (type a) = true /\ size a <= ptr_size P)
         (iter_args s) ->
  (is_success (syscall_name_res s) = true -> is_success (is_known_res s) = true ->
   event_pre_syscall P mem s =
     (EvOut (header_line s) :: printed_lines P mem (iter_args s), Done true)) /\
  (is_success (succeeded_res s) = true ->
   event_post_syscall P mem s =
     (EvOut (outcome_line s) :: printed_lines P mem (iter_args s), Done tt)).
Proof.
  intros H1 Htol Hall.
  pose proof (visit_args_simple_returns P mem _ Hall) as Hv.
  pose proof (visit_args_printed_lines P mem _ Hv) as Ht.
  split.
  - intros H2 H3. rewrite (event_pre_syscall_after_lookups P mem s H1 H2 H3).
    rewrite bind_OUTPUT, Htol.
    destruct (visit_args (drsys_iter_arg_cb P mem) (iter_args s)) as [t r].
    cbn in Hv, Ht. subst t r. cbn. rewrite !app_nil_r. reflexivity.
  - intros H2. rewrite (event_post_syscall_after_lookups P mem s H1 H2).
    rewrite bind_OUTPUT, Htol.
    destruct (visit_args (drsys_iter_arg_cb P mem) (iter_args s)) as [t r].
    cbn in Hv, Ht. subst t r. cbn. rewrite !app_nil_r. reflexivity.
Qed.

Lemma simple_call_traced_to_the_end_witness :
  event_pre_syscall win32 small_memory sample_call =
    (EvOut (header_line sample_call) ::
     printed_lines win32 small_memory (iter_args sample_call), Done true) /\
  event_post_syscall win32 small_memory sample_call =
    (EvOut (outcome_line sample_call) ::
     printed_lines win32 small_memory (iter_args sample_call), Done tt).
Proof.
  destruct (simple_call_traced_to_the_end win32 small_memory sample_call) as [H1 H2].
  - reflexivity.
  - reflexivity.
  - repeat constructor; cbn; lia.
  - split; [apply H1 | apply H2]; reflexivity.
Defined.

(** X10.  A failed lookup stops an event before it prints anything: the
    trace is the one assertion diagnostic of the first lookup that failed,
    and the records are never visited. *)
Theorem failed_lookup_aborts_before_output (P : platform) (mem : memory)
    (s : drsys_answers) :
  (is_success (cur_syscall_res s) = false ->
   event_pre_syscall P mem s = ([EvAssert "false" "drsys_cur_syscall failed"], Abort) /\
   event_post_syscall P mem s = ([EvAssert "false" "drsys_cur_syscall failed"], Abort)) /\
  (is_success (cur_syscall_res s) = true ->
   (is_success (syscall_name_res s) = false ->
    event_pre_syscall P mem s = ([EvAssert "false" "drsys_syscall_name failed"], Abort)) /\
   (is_success (syscall_name_res s) = true -> is_success (is_known_res s) = false ->
    event_pre_syscall P mem s = ([EvAssert "false" "failed to find whether known"], Abort)) /\
   (is_success (succeeded_res s) = false ->
    event_post_syscall P mem s =
      ([EvAssert "false" "drsys_syscall_succeeded failed"], Abort))).
Proof.
  unfold event_pre_syscall, event_post_syscall. split.
  - intros ->. split; reflexivity.
  - intros ->. split; [|split].
    + intros ->. reflexivity.
    + intros -> ->. reflexivity.
    + intros ->. reflexivity.
Qed.

Lemma failed_lookup_aborts_before_output_witness :
  event_pre_syscall win32 small_memory
    {| cur_syscall_res := DRMF_SUCCESS; syscall_name_res := DRMF_ERROR_OTHER 1;
       syscall_name := "NtClose"; is_known_res := DRMF_SUCCESS; known := true;
       succeeded_res := DRMF_SUCCESS; succeeded := true;
       iter_args := [invalid_arg]; iterate_res := DRMF_SUCCESS |} =
  ([EvAssert "false" "drsys_syscall_name failed"], Abort).
Proof.
  destruct (failed_lookup_aborts_before_output win32 small_memory
    {| cur_syscall_res := DRMF_SUCCESS; syscall_name_res := DRMF_ERROR_OTHER 1;
       syscall_name := "NtClose"; is_known_res := DRMF_SUCCESS; known := true;
       succeeded_res := DRMF_SUCCESS; succeeded := true;
       iter_args := [invalid_arg]; iterate_res := DRMF_SUCCESS |}) as [_ H].
  destruct (H eq_refl) as [H1 _]. apply H1. reflexivity.
Defined.

(** * The client: options, log file, start and exit *)

Lemma cbind_some {A B} (m : Cl A) (f : A -> Cl B) g t a g' :
  m g = (t, Some (a, g')) -> cbind m f g = (t ++ fst (f a g'), snd (f a g')).
Proof. unfold cbind. intros ->. destruct (f a g'); reflexivity. Qed.

Lemma cbind_none {A B} (m : Cl A) (f : A -> Cl B) g t :
  m g = (t, None) -> cbind m f g = (t, None).
Proof. unfold cbind. intros ->. reflexivity. Qed.

Section Options.

Variable E : environment.

Lemma options_loop_logdir path rest g :
  options_loop E ("-logdir" :: path :: rest) g =
  options_loop E rest {| outf := outf g; verbose := verbose g; logdir := path |}.
Proof.
  cbn [options_loop]. cbn [String.eqb Ascii.eqb Bool.eqb andb]. unfold cbind, set_logdir.
  destruct (options_loop E rest _); reflexivity.
Qed.

Lemma options_loop_verbose number v rest g :
  scan_uint E number = Some v ->
  options_loop E ("-verbose" :: number :: rest) g =
  options_loop E rest {| outf := outf g; verbose := v; logdir := logdir g |}.
Proof.
  intros Hs. cbn [options_loop]. cbn [String.eqb Ascii.eqb Bool.eqb andb]. rewrite Hs.
  unfold cbind, set_verbose. destruct (options_loop E rest _); reflexivity.
Qed.

(** The loop, one option at a time. *)
Lemma options_loop_cases token s1 g :
  (token = "-logdir" /\
   ((s1 = [] /\
     options_loop E (token :: s1) g = ([ClAssert "s != NULL" "missing logdir path"], None)) \/
    (exists path s2, s1 = path :: s2))) \/
  (token = "-verbose" /\
   ((s1 = [] /\
     options_loop E (token :: s1) g =
       ([ClAssert "s != NULL" "missing -verbose number"], None)) \/
    (exists number s2, s1 = number :: s2 /\
       ((exists v, scan_uint E number = Some v) \/
        (scan_uint E number = None /\
         options_loop E (token :: s1) g =
           ([ClAssert "res == 1" "invalid -verbose number"], None)))))) \/
  (token <> "-logdir" /\ token <> "-verbose" /\
   options_loop E (token :: s1) g =
     ((if verbose g >=? 0
       then [ClStderr ("UNRECOGNIZED OPTION: " +++ dquote +++ token +++ dquote +++ newline)]
       else []) ++ [ClAssert "false" "invalid option"], None)).
Proof.
  destruct (String.eqb token "-logdir") eqn:H1.
  - apply String.eqb_eq in H1. subst token. left. split; [reflexivity|].
    destruct s1 as [|path s2]; [left; split; reflexivity | right; eauto].
  - destruct (String.eqb token "-verbose") eqn:H2.
    + apply String.eqb_eq in H2. subst token. right. left. split; [reflexivity|].
      destruct s1 as [|number s2]; [left; split; reflexivity|].
      right. exists number, s2. split; [reflexivity|].
      destruct (scan_uint E number) as [v|] eqn:Hs; [left; eauto|].
      right. split; [reflexivity|]. cbn [options_loop].
      cbn [String.eqb Ascii.eqb Bool.eqb andb]. rewrite Hs. reflexivity.
    + right. right. apply String.eqb_neq in H1 as H1'. apply String.eqb_neq in H2 as H2'.
      split; [exact H1'|]. split; [exact H2'|].
      cbn [options_loop]. rewrite H1, H2. unfold cbind, ALERT, CHECK.
      destruct (verbose g >=? 0); reflexivity.
Qed.

Lemma well_formed_options_returns l :
  well_formed_options E l ->
  forall g, exists g1,
    options_loop E l g = ([], Some (tt, g1)) /\ outf g1 = outf g.
Proof.
  induction 1 as [|path rest _ IH|number v rest Hs _ IH]; intros g.
  - exists g. split; reflexivity.
  - rewrite options_loop_logdir. destruct (IH {| outf := outf g; verbose := verbose g;
                                                logdir := path |}) as [g1 [H1 H2]].
    exists g1. split; [exact H1 | exact H2].
  - rewrite (options_loop_verbose _ _ _ _ Hs).
    destruct (IH {| outf := outf g; verbose := v; logdir := logdir g |}) as [g1 [H1 H2]].
    exists g1. split; [exact H1 | exact H2].
Qed.

Lemma options_loop_returns_well_formed n :
  forall l g r, (List.length l <= n)%nat ->
  snd (options_loop E l g) = Some r -> well_formed_options E l.
Proof.
  induction n as [|n IH]; intros l g r Hlen Hr.
  - destruct l; [constructor | cbn in Hlen; lia].
  - destruct l as [|token s1]; [constructor|].
    destruct (options_loop_cases token s1 g)
      as [[-> [[-> Hab]|[path [s2 ->]]]]
         |[[-> [[-> Hab]|[number [s2 [-> [[v Hs]|[Hs Hab]]]]]]]
          |[_ [_ Hab]]]];
      try (rewrite Hab in Hr; discriminate Hr).
    + rewrite options_loop_logdir in Hr. constructor.
      eapply IH; [|exact Hr]. cbn in Hlen. lia.
    + rewrite (options_loop_verbose _ _ _ _ Hs) in Hr.
      apply (wf_verbose E number v); [exact Hs|].
      eapply IH; [|exact Hr]. cbn in Hlen. lia.
Qed.

Lemma options_loop_no_file_events n :
  forall l g, (List.length l <= n)%nat ->
  Forall (fun e => is_open_event e = false /\ is_close_event e = false)
         (fst (options_loop E l g)).
Proof.
  induction n as [|n IH]; intros l g Hlen.
  - destruct l; [constructor | cbn in Hlen; lia].
  - destruct l as [|token s1]; [constructor|].
    destruct (options_loop_cases token s1 g)
      as [[-> [[-> Hab]|[path [s2 ->]]]]
         |[[-> [[-> Hab]|[number [s2 [-> [[v Hs]|[Hs Hab]]]]]]]
          |[_ [_ Hab]]]];
      try (rewrite Hab; repeat constructor).
    + rewrite options_loop_logdir. apply IH. cbn in Hlen. lia.
    + rewrite (options_loop_verbose _ _ _ _ Hs). apply IH. cbn in Hlen. lia.
    + destruct (verbose g >=? 0); repeat constructor.
Qed.

End Options.

(** X11.  The option loop returns exactly on well-formed options (pairs of
    -logdir and a path, and of -verbose and a number that is read); it then
    has printed nothing and has left the trace file alone.  On any other
    token list it aborts. *)
Theorem options_return_iff_well_formed (E : environment) (l : list string) (g : globals) :
  ((exists r, snd (options_loop E l g) = Some r) <-> well_formed_options E l) /\
  (well_formed_options E l ->
   exists g1, options_loop E l g = ([], Some (tt, g1)) /\ outf g1 = outf g) /\
  (~ well_formed_options E l -> snd (options_loop E l g) = None).
Proof.
  split; [|split].
  - split.
    + intros [r Hr]. apply (options_loop_returns_well_formed E (List.length l) l g r);
        [lia | exact Hr].
    + intros Hwf. destruct (well_formed_options_returns E l Hwf g) as [g1 [H1 _]].
      exists (tt, g1). rewrite H1. reflexivity.
  - intros Hwf. apply well_formed_options_returns. exact Hwf.
  - intros Hn. destruct (snd (options_loop E l g)) as [r|] eqn:Hr; [|reflexivity].
    exfalso. apply Hn.
    apply (options_loop_returns_well_formed E (List.length l) l g r); [lia | exact Hr].
Qed.

Lemma options_return_iff_well_formed_witness :
  exists g1,
    options_loop (sample_environment []) ["-verbose"; "2"; "-logdir"; "/tmp"] initial_globals =
      ([], Some (tt, g1)) /\
    outf g1 = outf initial_globals.
Proof.
  destruct (options_return_iff_well_formed (sample_environment [])
              ["-verbose"; "2"; "-logdir"; "/tmp"] initial_globals) as [_ [H _]].
  apply H. apply (wf_verbose _ _ 2); [reflexivity|]. apply wf_logdir. apply wf_no_option.
Defined.

Lemma options_loop_app (E : environment) (l1 l2 : list string) :
  well_formed_options E l1 ->
  forall g, exists g1,
    options_loop E l1 g = ([], Some (tt, g1)) /\
    options_loop E (l1 ++ l2) g = options_loop E l2 g1.
Proof.
  induction 1 as [|path rest _ IH|number v rest Hs _ IH]; intros g.
  - exists g. split; reflexivity.
  - cbn [app]. rewrite !options_loop_logdir. apply IH.
  - cbn [app]. rewrite !(options_loop_verbose _ _ _ _ _ Hs). apply IH.
Qed.

(** X12.  Options are applied from left to right: after a well-formed list
    of options the loop goes on with the rest from the globals that list
    leaves, so a later -logdir (or -verbose) overrides an earlier one, and the
    token after -logdir is taken as the path whatever it looks like. *)
Theorem options_apply_left_to_right (E : environment) (l1 l2 : list string)
    (g : globals) :
  well_formed_options E l1 ->
  exists g1,
    options_loop E l1 g = ([], Some (tt, g1)) /\
    options_loop E (l1 ++ l2) g = options_loop E l2 g1 /\
    (forall path,
       options_loop E (l1 ++ ["-logdir"; path]) g =
         ([], Some (tt, {| outf := outf g1; verbose := verbose g1; logdir := path |}))) /\
    (forall number v, scan_uint E number = Some v ->
       options_loop E (l1 ++ ["-verbose"; number]) g =
         ([], Some (tt, {| outf := outf g1; verbose := v; logdir := logdir g1 |}))).
Proof.
  intros Hwf.
  destruct (options_loop_app E l1 l2 Hwf g) as [g1 [H1 H2]].
  exists g1. split; [exact H1|]. split; [exact H2|]. split.
  - intros path. destruct (options_loop_app E l1 ["-logdir"; path] Hwf g) as [g2 [H3 H4]].
    rewrite H1 in H3. injection H3 as <-. rewrite H4, options_loop_logdir. reflexivity.
  - intros number v Hs.
    destruct (options_loop_app E l1 ["-verbose"; number] Hwf g) as [g2 [H3 H4]].
    rewrite H1 in H3. injection H3 as <-.
    rewrite H4, (options_loop_verbose _ _ _ _ _ Hs). reflexivity.
Qed.

Lemma options_apply_left_to_right_witness :
  options_loop (sample_environment []) (["-logdir"; "/a"] ++ ["-logdir"; "-verbose"])
    initial_globals =
  ([], Some (tt, {| outf := LOG_FILE 0; verbose := 0; logdir := "-verbose" |})).
Proof.
  destruct (options_apply_left_to_right (sample_environment []) ["-logdir"; "/a"] []
              initial_globals) as [g1 [H1 [_ [H3 _]]]].
  - apply wf_logdir. apply wf_no_option.
  - injection H1 as <-. apply H3.
Defined.

(** X13.  The first token that is not an option name, after well-formed
    options, ends the process: the loop prints the alert naming the token
    (the verbosity read so far is not negative) and aborts on the usage
    check, whatever follows. *)
Theorem unrecognized_option_aborts (E : environment) (l1 l2 : list string)
    (token : string) (g : globals) :
  well_formed_options E l1 ->
  token <> "-logdir" -> token <> "-verbose" ->
  0 <= verbose g -> (forall s v, scan_uint E s = Some v -> 0 <= v) ->
  options_loop E (l1 ++ token :: l2) g =
  ([ClStderr ("UNRECOGNIZED OPTION: " +++ dquote +++ token +++ dquote +++ newline);
    ClAssert "false" "invalid option"], None).
Proof.
  intros Hwf Hn1 Hn2 Hv Hscan.
  assert (Hpos : forall l, well_formed_options E l -> forall g0 g1,
            0 <= verbose g0 -> options_loop E l g0 = ([], Some (tt, g1)) ->
            0 <= verbose g1).
  { induction 1 as [|path rest _ IH|number v rest Hs _ IH]; intros g0 g1 H0 Hr.
    - injection Hr as <-. exact H0.
    - rewrite options_loop_logdir in Hr.
      apply (IH {| outf := outf g0; verbose := verbose g0; logdir := path |} g1);
        [exact H0 | exact Hr].
    - rewrite (options_loop_verbose _ _ _ _ _ Hs) in Hr.
      apply (IH {| outf := outf g0; verbose := v; logdir := logdir g0 |} g1);
        [exact (Hscan _ _ Hs) | exact Hr]. }
  destruct (options_loop_app E l1 (token :: l2) Hwf g) as [g1 [H1 H2]].
  rewrite H2. pose proof (Hpos l1 Hwf g g1 Hv H1) as Hv1.
  destruct (options_loop_cases E token l2 g1) as [[Ht _]|[[Ht _]|[_ [_ Hab]]]];
    try contradiction.
  rewrite Hab. assert (Hge : (verbose g1 >=? 0) = true) by (apply Z.geb_le; exact Hv1).
  rewrite Hge. reflexivity.
Qed.

Lemma scan_digits_nonneg s v : scan_digits s = Some v -> 0 <= v.
Proof.
  unfold scan_digits. destruct (NilEmpty.uint_of_string s) as [u|]; [|discriminate].
  pose proof (N2Z.is_nonneg (N.of_uint u)) as Hn.
  destruct u; intros H; try discriminate H; injection H as <-; exact Hn.
Qed.

Lemma unrecognized_option_aborts_witness :
  options_loop (sample_environment []) (["-verbose"; "3"] ++ "-quiet" :: ["-logdir"; "/a"])
    initial_globals =
  ([ClStderr ("UNRECOGNIZED OPTION: " +++ dquote +++ "-quiet" +++ dquote +++ newline);
    ClAssert "false" "invalid option"], None).
Proof.
  apply (unrecognized_option_aborts (sample_environment []) ["-verbose"; "3"]
           ["-logdir"; "/a"] "-quiet" initial_globals).
  - apply (wf_verbose _ _ 3); [reflexivity | apply wf_no_option].
  - discriminate.
  - discriminate.
  - cbn. lia.
  - exact scan_digits_nonneg.
Defined.

(** ** Log file, start and exit *)

Section Lifecycle.

Variable E : environment.

Lemma options_init_eq g :
  options_init E g =
  options_loop E (option_tokens E) {| outf := outf g; verbose := verbose g; logdir := "-" |}.
Proof.
  unfold options_init, cbind, set_logdir. destruct (options_loop E _ _); reflexivity.
Qed.

Lemma open_log_file_stderr g :
  logdir g = "-" ->
  open_log_file E g =
  ([], Some (tt, {| outf := STDERR; verbose := verbose g; logdir := logdir g |})).
Proof.
  intros H. assert (Hb := proj2 (String.eqb_eq _ _) H).
  unfold open_log_file, cbind, get_globals. rewrite Hb. reflexivity.
Qed.

Lemma open_log_file_opens g :
  logdir g <> "-" ->
  open_log_file E g =
  if is_invalid_file (fst (open_unique E (logdir g)))
  then ([ClOpen (logdir g); ClAssert "outf != INVALID_FILE" "failed to open log file"], None)
  else (ClOpen (logdir g) ::
        (if verbose g >=? 1
         then [ClStderr ("log file is " +++ snd (open_unique E (logdir g)) +++ newline)]
         else []),
        Some (tt, {| outf := fst (open_unique E (logdir g)); verbose := verbose g;
                     logdir := logdir g |})).
Proof.
  intros H. apply String.eqb_neq in H.
  unfold open_log_file, cbind, get_globals, emit, set_outf, CHECK, ALERT. rewrite H.
  destruct (is_invalid_file _); cbn [negb]; [reflexivity|].
  cbn [verbose outf logdir]. destruct (verbose g >=? 1); reflexivity.
Qed.

(** [dr_init] once the options have been read. *)
Lemma dr_init_after_options g g0 :
  options_init E g = ([], Some (tt, g0)) ->
  dr_init E g =
  if negb (is_success (drsys_init_res E))
  then ([ClCall "drmgr_init"; ClCall "drx_init"; ClCall "drsys_init";
         ClAssert "false" "drsys failed to init"], None)
  else if negb (is_success (filter_all_res E))
  then ([ClCall "drmgr_init"; ClCall "drx_init"; ClCall "drsys_init";
         ClCall "dr_register_exit_event"] ++
        (if windows E then [ClCall "dr_enable_console_printing"] else []) ++
        [ClCall "dr_register_filter_syscall_event";
         ClCall "drmgr_register_pre_syscall_event";
         ClCall "drmgr_register_post_syscall_event";
         ClCall "drsys_filter_all_syscalls";
         ClAssert "false" "drsys_filter_all_syscalls should never fail"], None)
  else ([ClCall "drmgr_init"; ClCall "drx_init"; ClCall "drsys_init";
         ClCall "dr_register_exit_event"] ++
        (if windows E then [ClCall "dr_enable_console_printing"] else []) ++
        [ClCall "dr_register_filter_syscall_event";
         ClCall "drmgr_register_pre_syscall_event";
         ClCall "drmgr_register_post_syscall_event";
         ClCall "drsys_filter_all_syscalls"] ++ fst (open_log_file E g0),
        snd (open_log_file E g0)).
Proof.
  intros Ho. unfold dr_init. rewrite (cbind_some _ _ _ _ _ _ Ho).
  unfold cbind, emit, CHECK, cret.
  destruct (is_success (drsys_init_res E)); cbn [negb]; [|reflexivity].
  destruct (windows E), (is_success (filter_all_res E)); cbn [negb];
    try reflexivity; destruct (open_log_file E g0); reflexivity.
Qed.


End Lifecycle.

(** X14.  [open_log_file] never leaves an unusable trace file behind: with
    the directory "-" it selects STDERR and opens nothing; otherwise it opens
    one file in the directory and aborts when that fails.  Whenever it
    returns, [outf] is not the invalid file and the options are unchanged, and
    the path of the log file was announced exactly when a file was opened and
    the verbosity is at least 1. *)
Theorem open_log_file_result (E : environment) (g : globals) :
  (logdir g = "-" ->
   open_log_file E g =
     ([], Some (tt, {| outf := STDERR; verbose := verbose g; logdir := logdir g |}))) /\
  (logdir g <> "-" -> is_invalid_file (fst (open_unique E (logdir g))) = true ->
   open_log_file E g =
     ([ClOpen (logdir g); ClAssert "outf != INVALID_FILE" "failed to open log file"], None)) /\
  (forall g1, snd (open_log_file E g) = Some (tt, g1) ->
   is_invalid_file (outf g1) = false /\
   verbose g1 = verbose g /\ logdir g1 = logdir g /\
   (existsb (fun e => match e with ClStderr _ => true | _ => false end)
            (fst (open_log_file E g)) = true <->
    (logdir g <> "-" /\ 1 <= verbose g))).
Proof.
  split; [|split].
  - apply open_log_file_stderr.
  - intros Hd Hinv. rewrite (open_log_file_opens E g Hd), Hinv. reflexivity.
  - intros g1. destruct (String.eqb (logdir g) "-") eqn:Hd.
    + apply String.eqb_eq in Hd. rewrite (open_log_file_stderr E g Hd).
      cbn. intros H. injection H as <-. cbn.
      split; [reflexivity|]. split; [reflexivity|]. split; [reflexivity|].
      split; [discriminate|]. intros [Hn _]. contradiction.
    + apply String.eqb_neq in Hd. rewrite (open_log_file_opens E g Hd).
      destruct (is_invalid_file (fst (open_unique E (logdir g)))) eqn:Hinv;
        [discriminate|].
      cbn [fst snd]. intros H. injection H as <-. cbn [outf verbose logdir].
      split; [exact Hinv|]. split; [reflexivity|]. split; [reflexivity|].
      destruct (verbose g >=? 1) eqn:Hv; cbn.
      * apply Z.geb_le in Hv. split; [intros _; split; [exact Hd | exact Hv] | reflexivity].
      * split; [discriminate|]. intros [_ Hge]. apply Z.geb_le in Hge. congruence.
Qed.

Lemma open_log_file_result_witness :
  open_log_file (sample_environment [])
    {| outf := LOG_FILE 0; verbose := 1; logdir := "-" |} =
  ([], Some (tt, {| outf := STDERR; verbose := 1; logdir := "-" |})).
Proof.
  destruct (open_log_file_result (sample_environment [])
              {| outf := LOG_FILE 0; verbose := 1; logdir := "-" |}) as [H _].
  apply H. reflexivity.
Defined.

(** X15.  [dr_init] creates a log file only as its last step: a file is
    opened only when the options were well-formed, a -logdir other than "-"
    was in force, and both drsys_init and drsys_filter_all_syscalls had
    succeeded.  Whenever [dr_init] returns, the options were well-formed, both
    calls had succeeded and [outf] is STDERR or the file just opened, never
    the invalid file. *)
Theorem dr_init_opens_log_file_last (E : environment) (g : globals) :
  (forall d, In (ClOpen d) (fst (dr_init E g)) ->
     well_formed_options E (option_tokens E) /\
     is_success (drsys_init_res E) = true /\
     is_success (filter_all_res E) = true /\
     d <> "-") /\
  (forall g1, snd (dr_init E g) = Some (tt, g1) ->
     well_formed_options E (option_tokens E) /\
     is_success (drsys_init_res E) = true /\
     is_success (filter_all_res E) = true /\
     is_invalid_file (outf g1) = false /\
     (logdir g1 = "-" -> outf g1 = STDERR) /\
     (logdir g1 <> "-" -> outf g1 = fst (open_unique E (logdir g1)))).
Proof.
  destruct (options_init E g) as [t0 [[[] g0]|]] eqn:Ho.
  - assert (Hwf : well_formed_options E (option_tokens E)).
    { rewrite options_init_eq in Ho.
      apply (options_loop_returns_well_formed E (List.length (option_tokens E))
               (option_tokens E)
               {| outf := outf g; verbose := verbose g; logdir := "-" |} (tt, g0));
        [lia | rewrite Ho; reflexivity]. }
    assert (Ht0 : t0 = []).
    { rewrite options_init_eq in Ho.
      destruct (well_formed_options_returns E _ Hwf
                  {| outf := outf g; verbose := verbose g; logdir := "-" |}) as [g' [H' _]].
      rewrite H' in Ho. injection Ho as <- _. reflexivity. }
    subst t0. rewrite (dr_init_after_options E g g0 Ho).
    destruct (is_success (drsys_init_res E)); cbn [negb].
    2:{ split; [|intros g1 H; discriminate H].
        intros d Hin. cbn in Hin. intuition discriminate. }
    destruct (is_success (filter_all_res E)); cbn [negb].
    2:{ split; [|intros g1 H; discriminate H].
        intros d Hin. destruct (windows E); cbn in Hin; intuition discriminate. }
    cbn [fst snd]. split.
    + intros d Hin.
      assert (Hin' : In (ClOpen d) (fst (open_log_file E g0))).
      { destruct (windows E); cbn in Hin; intuition discriminate. }
      split; [exact Hwf|]. split; [reflexivity|]. split; [reflexivity|].
      destruct (String.eqb (logdir g0) "-") eqn:Hd.
      * apply String.eqb_eq in Hd. rewrite (open_log_file_stderr E g0 Hd) in Hin'.
        destruct Hin'.
      * apply String.eqb_neq in Hd. rewrite (open_log_file_opens E g0 Hd) in Hin'.
        assert (Hdd : d = logdir g0).
        { destruct (is_invalid_file _), (verbose g0 >=? 1); cbn in Hin';
            intuition congruence. }
        subst d. exact Hd.
    + intros g1 H. split; [exact Hwf|]. split; [reflexivity|]. split; [reflexivity|].
      destruct (open_log_file_result E g0) as [_ [_ Hret]].
      destruct (Hret g1 H) as [Hinv [_ [Hld _]]]. split; [exact Hinv|].
      destruct (String.eqb (logdir g0) "-") eqn:Hd.
      * apply String.eqb_eq in Hd. rewrite (open_log_file_stderr E g0 Hd) in H.
        injection H as <-. cbn. split; [reflexivity|]. intros Hn. contradiction.
      * apply String.eqb_neq in Hd. rewrite (open_log_file_opens E g0 Hd) in H.
        destruct (is_invalid_file _); [discriminate H|]. injection H as <-. cbn.
        split; [intros Heq; contradiction | reflexivity].
  - assert (Hd : dr_init E g = (t0, None)).
    { unfold dr_init. apply cbind_none. exact Ho. }
    rewrite Hd. split; [|intros g1 H; discriminate H].
    intros d Hin. cbn in Hin. rewrite options_init_eq in Ho.
    pose proof (options_loop_no_file_events E (List.length (option_tokens E))
                  (option_tokens E)
                  {| outf := outf g; verbose := verbose g; logdir := "-" |}
                  (Nat.le_refl _)) as Hno.
    rewrite Ho in Hno. cbn in Hno. rewrite Forall_forall in Hno.
    destruct (Hno _ Hin) as [Hopen _]. discriminate Hopen.
Qed.

Lemma dr_init_opens_log_file_last_witness :
  well_formed_options (sample_environment ["-logdir"; "/tmp"]) ["-logdir"; "/tmp"] /\
  is_success (drsys_init_res (sample_environment ["-logdir"; "/tmp"])) = true /\
  is_success (filter_all_res (sample_environment ["-logdir"; "/tmp"])) = true /\
  "/tmp" <> "-".
Proof.
  destruct (dr_init_opens_log_file_last (sample_environment ["-logdir"; "/tmp"])
              initial_globals) as [H _].
  apply (H "/tmp"). vm_compute. do 9 right. left. reflexivity.
Defined.




